(** * Option strategy analyzer: payoff, break-even, margin and return engine

    A shallow embedding of the numerical core of [app.py]
    ([calculate_payoff], [find_break_even_points], [calculate_us_margin] and
    the main-panel computations [S], [pnl_currency], [cost_basis],
    [roi_per_point], [total_roi]) together with the properties stated for it.

    Numbers.  The program computes on Python numbers and numpy [float64]
    arrays.  Finite numbers are embedded as exact rationals ([Q], compared
    with [==]); rounding is not modelled, except where a result hinges on
    it: the number of points of the price grid and its last point, for which
    [Float64] gives the same computation on binary64 numbers.  The two
    non-finite values the program creates on purpose, [float('inf')] and
    [np.nan], are constructors of [pyfloat].  A numpy one-dimensional array
    is a [list]. *)

From Stdlib Require Import QArith Qround Qabs Qminmax Lqa.
From Stdlib Require Import List String Ascii Bool Arith Lia ZArith.
From Stdlib Require Import Sorting.Sorted Sorting.Permutation.
From Stdlib Require PrimFloat FloatOps SpecFloat Uint63.
Import ListNotations.

Local Open Scope Q_scope.

(** ** Python runtime: exceptions *)

Module Py.

Inductive pyerr : Type :=
| IndexError
| ValueError
| ZeroDivisionError.

Inductive result (A : Type) : Type :=
| Ok (a : A)
| Raise (e : pyerr).

Arguments Ok {A} a.
Arguments Raise {A} e.

Definition bind {A B : Type} (r : result A) (k : A -> result B) : result B :=
  match r with
  | Ok a => k a
  | Raise e => Raise e
  end.

Definition raises {A : Type} (r : result A) : Prop :=
  exists e, r = Raise e.

End Py.
Import Py.

Notation "x <- r ;; k" := (bind r (fun x => k))
  (at level 61, r at next level, right associativity).

(** ** Python strings: [str.startswith] and the [in] operator *)

(** [s.startswith(p)] *)
Definition startswith (s p : string) : bool := String.prefix p s.

(** [p in s] for strings: [p] occurs in [s] at some offset. *)
Fixpoint str_in (p s : string) : bool :=
  String.prefix p s ||
  match s with
  | EmptyString => false
  | String _ s' => str_in p s'
  end.

(** [name in [n1, n2, ...]] for a list of strings. *)
Definition name_in (name : string) (names : list string) : bool :=
  existsb (String.eqb name) names.

(** ** Python lists and numpy arrays *)

(** [sum(xs)]: left fold starting from the integer 0. *)
Definition py_sum (xs : list Q) : Q := fold_left Qplus xs 0.

(** [xs[i]] for a non-negative index. *)
Definition getitem (xs : list Q) (i : nat) : result Q :=
  match nth_error xs i with
  | Some x => Ok x
  | None => Raise IndexError
  end.

(** [max(xs)]: the first largest element; [ValueError] on an empty list. *)
Definition py_max (xs : list Q) : result Q :=
  match xs with
  | [] => Raise ValueError
  | x :: t => Ok (fold_left (fun cur y => if Qlt_le_dec cur y then y else cur) t x)
  end.

(** [min(xs)]: the first smallest element; [ValueError] on an empty list. *)
Definition py_min (xs : list Q) : result Q :=
  match xs with
  | [] => Raise ValueError
  | x :: t => Ok (fold_left (fun cur y => if Qlt_le_dec y cur then y else cur) t x)
  end.

(** [sorted(xs)]: a stable ascending sort. *)
Fixpoint insert_sorted (x : Q) (xs : list Q) : list Q :=
  match xs with
  | [] => [x]
  | y :: t => if Qlt_le_dec x y then x :: y :: t else y :: insert_sorted x t
  end.

Definition sorted (xs : list Q) : list Q :=
  fold_right insert_sorted [] (rev xs).

(** [np.zeros_like(a, dtype=float)] *)
Definition np_zeros_like (a : list Q) : list Q := map (fun _ => 0) a.

(** [a + b] on arrays of one shape. *)
Definition np_add (a b : list Q) : list Q :=
  map (fun p => fst p + snd p) (combine a b).

(** [np.maximum(0, a)] *)
Definition np_maximum0 (a : list Q) : list Q := map (Qmax 0) a.

(** ** Legs *)

(** A leg as the program builds it: a dict with keys ['type'], ['strike'] and
    ['premium']. *)
Record leg : Type := mkleg {
  type : string;
  strike : Q;
  premium : Q
}.

(** ** [calculate_payoff] *)

(** The body of the loop of [calculate_payoff]: the array added to
    [total_payoff_points] for one leg. *)
Definition leg_payoff (S : list Q) (l : leg) : list Q :=
  let K := strike l in
  let direction := if startswith (type l) "long" then 1 else -1 in
  let option_type := str_in "call" (type l) in
  let intrinsic_value :=
    if option_type then np_maximum0 (map (fun s => s - K) S)
    else np_maximum0 (map (fun s => K - s) S) in
  map (fun v => direction * v) intrinsic_value.

Definition calculate_payoff (S : list Q) (strategy_details : list leg) : list Q :=
  fold_left (fun total_payoff_points l => np_add total_payoff_points (leg_payoff S l))
            strategy_details (np_zeros_like S).

(** [net_premium_points] of the main panel, and [net_premium] of
    [calculate_us_margin]: the same expression in both places. *)
Definition net_premium_points (strategy_details : list leg) : Q :=
  py_sum (map (fun l => if startswith (type l) "short" then premium l else - premium l)
              strategy_details).

(** [pnl_currency = (calculate_payoff(S, strategy_details) + net_premium_points) * multiplier] *)
Definition pnl_currency (S : list Q) (strategy_details : list leg) (multiplier : Q) : list Q :=
  map (fun v => (v + net_premium_points strategy_details) * multiplier)
      (calculate_payoff S strategy_details).

(** [net_cost_credit = net_premium_points * multiplier] *)
Definition net_cost_credit (strategy_details : list leg) (multiplier : Q) : Q :=
  net_premium_points strategy_details * multiplier.

(** ** [find_break_even_points] *)

(** [np.sign] on one element: -1, 0 or 1. *)
Definition sign (x : Q) : Q := inject_Z (Z.sgn (Qnum x)).

Definition np_sign (a : list Q) : list Q := map sign a.

(** [np.diff(a)]: [out[i] = a[i+1] - a[i]]. *)
Fixpoint np_diff (a : list Q) : list Q :=
  match a with
  | x :: (y :: _) as t => (y - x) :: np_diff t
  | _ => []
  end.

(** [np.where(a)[0]]: the indices of the non-zero elements of [a], ascending;
    [nonzero_from k a] numbers the elements of [a] from [k]. *)
Fixpoint nonzero_from (k : nat) (a : list Q) : list nat :=
  match a with
  | [] => []
  | x :: t => if Qeq_bool x 0 then nonzero_from (S k) t else k :: nonzero_from (S k) t
  end.

Definition np_where (a : list Q) : list nat := nonzero_from 0 a.

(** The list comprehension of [find_break_even_points], over the indices
    still to visit. *)
Fixpoint break_evens_over (S PnL : list Q) (indices : list nat) : result (list Q) :=
  match indices with
  | [] => Ok []
  | i :: rest =>
      p1 <- getitem PnL (i + 1) ;;
      p0 <- getitem PnL i ;;
      if negb (Qeq_bool (p1 - p0) 0) then
        s0 <- getitem S i ;;
        s1 <- getitem S (i + 1) ;;
        tl <- break_evens_over S PnL rest ;;
        Ok ((s0 - p0 * (s1 - s0) / (p1 - p0)) :: tl)
      else break_evens_over S PnL rest
  end.

Definition find_break_even_points (S PnL : list Q) : result (list Q) :=
  let indices := np_where (np_diff (np_sign PnL)) in
  break_evens_over S PnL indices.

(** ** [calculate_us_margin] *)

Definition calculate_us_margin (strategy_name : string) (strategy_details : list leg)
    (multiplier : Q) : result Q :=
  let net_premium := net_premium_points strategy_details in
  if Qle_bool net_premium 0 then Ok 0
  else
    if name_in strategy_name ["Iron Condor"; "Bull Put Spread"; "Bear Call Spread"]%string then
      let k_values := map strike strategy_details in
      hi <- py_max k_values ;;
      lo <- py_min k_values ;;
      let margin := (hi - lo) * multiplier in
      if String.eqb strategy_name "Iron Condor" then
        let k_calls :=
          sorted (map strike (filter (fun l => str_in "call" (type l)) strategy_details)) in
        c1 <- getitem k_calls 1 ;;
        c0 <- getitem k_calls 0 ;;
        Ok ((c1 - c0) * multiplier)
      else Ok margin
    else Ok 0.

(** ** The price grid [S] *)

(** [np.arange(start, stop, step)]: [ceil((stop - start) / step)] values
    [start + i * step], none when that count is not positive; the division
    fails on a zero step.

    This is the array in exact arithmetic.  numpy computes the count and
    the points in binary64, where a rounded quotient can give one point
    more and a last point equal to [stop]: the count and the distance of
    the last point to [stop] are therefore read off [Float64.np_arange]
    below, not off this definition. *)
Definition np_arange (start stop step : Q) : result (list Q) :=
  if Qeq_bool step 0 then Raise ZeroDivisionError
  else
    let n := Z.to_nat (Qceiling ((stop - start) / step)) in
    Ok (map (fun i => start + inject_Z (Z.of_nat i) * step) (seq 0 n)).

(** [buffer = (max_strike - min_strike) * 1.5 if max_strike > min_strike else 20] *)
Definition buffer (min_strike max_strike : Q) : Q :=
  if Qlt_le_dec min_strike max_strike then (max_strike - min_strike) * (3 # 2) else 20.

(** The array [S] of the main panel, from the list [strikes]. *)
Definition S_prices (strikes : list Q) : result (list Q) :=
  min_strike <- py_min strikes ;;
  max_strike <- py_max strikes ;;
  np_arange (min_strike - buffer min_strike max_strike)
            (max_strike + buffer min_strike max_strike) (1 # 2).

(** ** The price grid in binary64

    The same three lines of the main panel on IEEE 754 binary64 numbers, as
    Python and numpy compute them.  [None] stands for the exception raised
    where no array is returned. *)

Module Float64.

Import PrimFloat.
Local Open Scope float_scope.

(** [min(xs)] and [max(xs)] on floats; an empty list raises. *)
Definition py_min (xs : list float) : option float :=
  match xs with
  | [] => None
  | x :: t => Some (fold_left (fun cur y => if ltb y cur then y else cur) t x)
  end.

Definition py_max (xs : list float) : option float :=
  match xs with
  | [] => None
  | x :: t => Some (fold_left (fun cur y => if ltb cur y then y else cur) t x)
  end.

(** The length of the array: the ceiling of a double as a machine integer;
    it does not exist for an infinity, a NaN or a value beyond the integer
    range. *)
Definition ceil_to_intp (x : float) : option Z :=
  match FloatOps.Prim2SF x with
  | SpecFloat.S754_zero _ => Some 0%Z
  | SpecFloat.S754_finite s mt e =>
      let v := if s then Zneg mt else Zpos mt in
      let c := if (0 <=? e)%Z then (v * 2 ^ e)%Z else (- ((- v) / 2 ^ (- e)))%Z in
      if ((- 2 ^ 63 <=? c) && (c <? 2 ^ 63))%Z then Some c else None
  | _ => None
  end.

(** An index as a double. *)
Definition of_index (i : nat) : float := of_uint63 (Uint63.of_Z (Z.of_nat i)).

(** [np.arange(start, stop, step)] on Python floats: the length is
    [ceil((stop - start) / step)]; the first two values are [start] and
    [start + step], and value [i] from the third on is [start + i * delta]
    with [delta] the difference of the first two. *)
Definition np_arange (start stop step : float) : option (list float) :=
  if eqb step 0 then None
  else
    match ceil_to_intp ((stop - start) / step) with
    | None => None
    | Some len =>
        let next := start + step in
        let delta := next - start in
        Some (map (fun i => match i with
                            | O => start
                            | S O => next
                            | _ => start + of_index i * delta
                            end)
                  (seq 0 (Z.to_nat len)))
    end.

(** [buffer = (max_strike - min_strike) * 1.5 if max_strike > min_strike else 20] *)
Definition buffer (min_strike max_strike : float) : float :=
  if ltb min_strike max_strike then (max_strike - min_strike) * 1.5 else 20.

(** The array [S] of the main panel. *)
Definition S_prices (strikes : list float) : option (list float) :=
  match py_min strikes, py_max strikes with
  | Some min_strike, Some max_strike =>
      np_arange (min_strike - buffer min_strike max_strike)
                (max_strike + buffer min_strike max_strike) 0.5
  | _, _ => None
  end.

End Float64.

(** ** Capital basis and return on capital *)

(** A Python float: a finite number, [float('inf')] or [np.nan]. *)
Inductive pyfloat : Type :=
| Finite (q : Q)
| Inf
| NaN.

(** [cost_basis], from [net_cost_credit] and [margin]. *)
Definition cost_basis (net_cost_credit margin : Q) : Q :=
  if Qlt_le_dec net_cost_credit 0 then Qabs net_cost_credit else margin.

(** [np.full_like(a, np.nan)] *)
Definition np_full_like_nan (a : list Q) : list pyfloat := map (fun _ => NaN) a.

(** [roi_per_point], from [pnl_currency] and [cost_basis]. *)
Definition roi_per_point (pnl_currency : list Q) (cost_basis : Q) : list pyfloat :=
  if Qlt_le_dec 0 cost_basis
  then map (fun v => Finite ((v / cost_basis) * 100)) pnl_currency
  else np_full_like_nan pnl_currency.

(** [total_roi], from [max_profit], [net_cost_credit] and [cost_basis]. *)
Definition total_roi (max_profit net_cost_credit cost_basis : Q) : pyfloat :=
  if Qlt_le_dec net_cost_credit 0 then
    if Qlt_le_dec 0 cost_basis then Finite ((max_profit / cost_basis) * 100) else Inf
  else
    if Qlt_le_dec 0 cost_basis then Finite ((net_cost_credit / cost_basis) * 100) else Inf.

(** ** The main panel *)

Record analysis : Type := mkanalysis {
  a_S : list Q;
  a_pnl_currency : list Q;
  a_max_profit : Q;
  a_max_loss : Q;
  a_break_evens : list Q;
  a_net_cost_credit : Q;
  a_margin : Q;
  a_cost_basis : Q;
  a_roi_per_point : list pyfloat;
  a_total_roi : pyfloat
}.

(** The computations of the [elif strategy_details:] branch, in program order. *)
Definition main_panel (strategy_name : string) (strategy_details : list leg)
    (strikes : list Q) (multiplier : Q) : result analysis :=
  S <- S_prices strikes ;;
  let pnl := pnl_currency S strategy_details multiplier in
  max_profit <- py_max pnl ;;
  max_loss <- py_min pnl ;;
  break_evens <- find_break_even_points S pnl ;;
  let ncc := net_cost_credit strategy_details multiplier in
  margin <- calculate_us_margin strategy_name strategy_details multiplier ;;
  let cb := cost_basis ncc margin in
  Ok (mkanalysis S pnl max_profit max_loss break_evens ncc margin cb
        (roi_per_point pnl cb) (total_roi max_profit ncc cb)).

(** ** Pointwise readings

    The value of one array element, for the statements below that speak of a
    single price. *)

(** One element of [leg_payoff]: [direction * intrinsic_value] at price [s]. *)
Definition leg_point (s : Q) (l : leg) : Q :=
  (if startswith (type l) "long" then 1 else -1)
  * (if str_in "call" (type l) then Qmax 0 (s - strike l) else Qmax 0 (strike l - s)).

(** One element of [calculate_payoff]: the accumulation over the legs. *)
Definition payoff_point (s : Q) (strategy_details : list leg) : Q :=
  fold_left (fun total l => total + leg_point s l) strategy_details 0.

(** ** The specification's vocabulary

    Definitions that follow the specification's wording, to be compared with
    the program's functions above. *)

Module Spec.

Inductive optionClass : Type := Call | Put.
Inductive direction : Type := Long | Short.

Record Leg : Type := mkLeg {
  leg_class : optionClass;
  leg_direction : direction;
  leg_strike : Q;
  leg_premium : Q
}.

(** Intrinsic value per unit: [max(0, price - strike)] for a call and
    [max(0, strike - price)] for a put. *)
Definition intrinsic (price : Q) (l : Leg) : Q :=
  match leg_class l with
  | Call => Qmax 0 (price - leg_strike l)
  | Put => Qmax 0 (leg_strike l - price)
  end.

(** Signed contribution: [+intrinsic] if Long, [-intrinsic] if Short. *)
Definition signedIntrinsic (price : Q) (l : Leg) : Q :=
  match leg_direction l with
  | Long => intrinsic price l
  | Short => - intrinsic price l
  end.

Fixpoint sumQ (xs : list Q) : Q :=
  match xs with
  | [] => 0
  | x :: t => x + sumQ t
  end.

Definition intrinsicPayoff (price : Q) (legs : list Leg) : Q :=
  sumQ (map (signedIntrinsic price) legs).

(** [premium if Short else -premium], summed over the legs. *)
Definition netPremiumPerUnit (legs : list Leg) : Q :=
  sumQ (map (fun l => match leg_direction l with
                      | Short => leg_premium l
                      | Long => - leg_premium l
                      end) legs).

Definition netPayoffCurrency (price : Q) (legs : list Leg) (multiplier : Q) : Q :=
  (intrinsicPayoff price legs + netPremiumPerUnit legs) * multiplier.

(** The string tag under which the program stores a class and a direction. *)
Definition tag (c : optionClass) (d : direction) : string :=
  match d, c with
  | Long, Call => "long_call"
  | Short, Call => "short_call"
  | Long, Put => "long_put"
  | Short, Put => "short_put"
  end.

Definition to_leg (l : Leg) : leg :=
  mkleg (tag (leg_class l) (leg_direction l)) (leg_strike l) (leg_premium l).

(** How the payoff loop reads a tag: long when it starts with "long", short
    otherwise; a call when it contains "call", a put otherwise. *)
Definition read_class (t : string) : optionClass :=
  if str_in "call" t then Call else Put.

Definition read_direction (t : string) : direction :=
  if startswith t "long" then Long else Short.

Definition read_leg (l : leg) : Leg :=
  mkLeg (read_class (type l)) (read_direction (type l)) (strike l) (premium l).

(** Linear interpolation between the grid points [i] and [i+1]. *)
Definition interpolate (prices pnl : list Q) (i : nat) : Q :=
  nth i prices 0
  - nth i pnl 0 * (nth (i + 1) prices 0 - nth i prices 0) / (nth (i + 1) pnl 0 - nth i pnl 0).

(** The sign bucket of a value: negative, zero or positive. *)
Definition signBucket (x : Q) : comparison := x ?= 0.

(** The adjacent pair [i], [i+1] crosses: the signs differ and the
    denominator of the interpolation is not zero. *)
Definition sameSign (x y : Q) : bool :=
  match signBucket x, signBucket y with
  | Lt, Lt | Eq, Eq | Gt, Gt => true
  | _, _ => false
  end.

Definition crossing (pnl : list Q) (i : nat) : bool :=
  negb (sameSign (nth i pnl 0) (nth (i + 1) pnl 0))
  && negb (Qeq_bool (nth (i + 1) pnl 0 - nth i pnl 0) 0).

(** One interpolated value per crossing pair, by ascending index. *)
Definition findCrossings (prices pnl : list Q) : list Q :=
  map (interpolate prices pnl) (filter (crossing pnl) (seq 0 (List.length pnl - 1))).

(** A sequence in which each element is below every later one. *)
Definition strictlyIncreasing (xs : list Q) : Prop := StronglySorted Qlt xs.

Definition ascending (xs : list Q) : Prop := StronglySorted Qle xs.

End Spec.

(** ** The sidebar: parameters of the selected strategy *)

(** The selected strategy with the numbers entered for it, in the order the
    sidebar creates the inputs. *)
Inductive sidebar : Type :=
| BullCallSpread (k_low p_low k_high p_high : Q)
| BearPutSpread (k_high p_high k_low p_low : Q)
| BullPutSpread (k_high p_high k_low p_low : Q)
| BearCallSpread (k_low p_low k_high p_high : Q)
| ButterflySpread (k_low p_low k_mid p_mid k_high p_high : Q)
| IronCondor (k_lp p_lp k_sp p_sp k_sc p_sc k_lc p_lc : Q).

(** The value of the select box. *)
Definition strategy_name (s : sidebar) : string :=
  match s with
  | BullCallSpread _ _ _ _ => "Bull Call Spread"
  | BearPutSpread _ _ _ _ => "Bear Put Spread"
  | BullPutSpread _ _ _ _ => "Bull Put Spread"
  | BearCallSpread _ _ _ _ => "Bear Call Spread"
  | ButterflySpread _ _ _ _ _ _ => "Butterfly Spread"
  | IronCondor _ _ _ _ _ _ _ _ => "Iron Condor"
  end.

(** [a < b] and [a >= b] on numbers. *)
Definition py_lt (a b : Q) : bool := negb (Qle_bool b a).
Definition py_ge (a b : Q) : bool := Qle_bool b a.

(** What a parameter block leaves behind: [strategy_details], [strikes] and
    [error_message]. *)
Record parameters : Type := mkparameters {
  strategy_details : list leg;
  strikes : list Q;
  error_message : string
}.

(** The parameter blocks, one branch per strategy. *)
Definition read_sidebar (s : sidebar) : parameters :=
  match s with
  | BullCallSpread k_low p_low k_high p_high =>
      mkparameters
        [mkleg "long_call" k_low p_low; mkleg "short_call" k_high p_high]
        [k_low; k_high]
        (if py_ge k_low k_high
         then "邏輯錯誤：Long Call 的履約價必須低於 Short Call。" else "")
  | BearPutSpread k_high p_high k_low p_low =>
      mkparameters
        [mkleg "long_put" k_high p_high; mkleg "short_put" k_low p_low]
        [k_low; k_high]
        (if py_ge k_low k_high
         then "邏輯錯誤：Long Put 的履約價必須高於 Short Put。" else "")
  | BullPutSpread k_high p_high k_low p_low =>
      mkparameters
        [mkleg "short_put" k_high p_high; mkleg "long_put" k_low p_low]
        [k_low; k_high]
        (if py_ge k_low k_high
         then "邏輯錯誤：Short Put 的履約價必須高於 Long Put。" else "")
  | BearCallSpread k_low p_low k_high p_high =>
      mkparameters
        [mkleg "short_call" k_low p_low; mkleg "long_call" k_high p_high]
        [k_low; k_high]
        (if py_ge k_low k_high
         then "邏輯錯誤：Short Call 的履約價必須低於 Long Call。" else "")
  | ButterflySpread k_low p_low k_mid p_mid k_high p_high =>
      mkparameters
        [mkleg "long_call" k_low p_low; mkleg "short_call" k_mid p_mid;
         mkleg "short_call" k_mid p_mid; mkleg "long_call" k_high p_high]
        [k_low; k_mid; k_high]
        (if negb (py_lt k_low k_mid && py_lt k_mid k_high)
         then "邏輯錯誤：履約價必須是 Wing 1 < Body < Wing 2。" else "")
  | IronCondor k_lp p_lp k_sp p_sp k_sc p_sc k_lc p_lc =>
      mkparameters
        [mkleg "long_put" k_lp p_lp; mkleg "short_put" k_sp p_sp;
         mkleg "short_call" k_sc p_sc; mkleg "long_call" k_lc p_lc]
        [k_lp; k_sp; k_sc; k_lc]
        (if negb (py_lt k_lp k_sp && py_lt k_sp k_sc && py_lt k_sc k_lc)
         then "邏輯錯誤：履約價必須依序遞增。" else "")
  end.

(** The strike order each parameter block asks for. *)
Definition strikes_in_order (s : sidebar) : Prop :=
  match s with
  | BullCallSpread k_low _ k_high _ => k_low < k_high
  | BearPutSpread k_high _ k_low _ => k_low < k_high
  | BullPutSpread k_high _ k_low _ => k_low < k_high
  | BearCallSpread k_low _ k_high _ => k_low < k_high
  | ButterflySpread k_low _ k_mid _ k_high _ => k_low < k_mid /\ k_mid < k_high
  | IronCondor k_lp _ k_sp _ k_sc _ k_lc _ => k_lp < k_sp /\ k_sp < k_sc /\ k_sc < k_lc
  end.

(** ** The page *)

(** The three branches of the main panel. *)
Inductive page : Type :=
| ErrorPage (message : string)
| AnalysisPage (a : analysis)
| InfoPage.

(** [if error_message: ... elif strategy_details: ... else: ...]; a non-empty
    string and a non-empty list are true. *)
Definition app (multiplier : Q) (s : sidebar) : result page :=
  let p := read_sidebar s in
  if negb (String.eqb (error_message p) "") then Ok (ErrorPage (error_message p))
  else
    match strategy_details p with
    | _ :: _ =>
        a <- main_panel (strategy_name s) (strategy_details p) (strikes p) multiplier ;;
        Ok (AnalysisPage a)
    | [] => Ok InfoPage
    end.

(** The curve of an analysis, with its largest and smallest value, stays
    between [lo] and [hi]. *)
Definition curve_within (a : analysis) (lo hi : Q) : Prop :=
  Forall (fun v => lo <= v /\ v <= hi) (a_pnl_currency a)
  /\ lo <= a_max_loss a
  /\ a_max_profit a <= hi.

(** ** The chart's profit and loss regions *)

(** [a.clip(min=lo)] and [a.clip(max=hi)] *)
Definition np_clip_min (lo : Q) (a : list Q) : list Q :=
  map (fun v => if Qlt_le_dec v lo then lo else v) a.

Definition np_clip_max (hi : Q) (a : list Q) : list Q :=
  map (fun v => if Qlt_le_dec hi v then hi else v) a.

(** ** The list of legs under the chart *)

(** [leg_type_map], as the list of its items. *)
Definition leg_type_map : list (string * string) :=
  [("long_call", "買進 買權"); ("short_call", "賣出 買權");
   ("long_put", "買進 賣權"); ("short_put", "賣出 賣權")]%string.

(** [d[key]] on a dict given by its items; [None] stands for [KeyError]. *)
Fixpoint dict_getitem (d : list (string * string)) (key : string) : option string :=
  match d with
  | [] => None
  | (k, v) :: t => if String.eqb k key then Some v else dict_getitem t key
  end.

(** The lookups [leg_type_map[leg['type']]] of the closing loop, in order;
    the first missing key ends the loop. *)
Fixpoint leg_labels (legs : list leg) : option (list string) :=
  match legs with
  | [] => Some []
  | l :: t =>
      match dict_getitem leg_type_map (type l) with
      | None => None
      | Some label =>
          match leg_labels t with
          | None => None
          | Some labels => Some (label :: labels)
          end
      end
  end.

(** * Properties *)

(** ** Arrays and sums *)

Section Arrays.

Lemma np_add_map {A : Type} (g h : A -> Q) (xs : list A) :
  np_add (map g xs) (map h xs) = map (fun x => g x + h x) xs.
Proof.
  unfold np_add.
  induction xs as [|x xs IH]; simpl; [reflexivity|].
  now rewrite IH.
Qed.

Lemma leg_payoff_map (S : list Q) (l : leg) :
  leg_payoff S l = map (fun s => leg_point s l) S.
Proof.
  unfold leg_payoff, leg_point, np_maximum0.
  destruct (str_in "call" (type l)); rewrite !map_map; reflexivity.
Qed.

Lemma payoff_fold_map (S : list Q) (legs : list leg) (g : Q -> Q) :
  fold_left (fun total l => np_add total (leg_payoff S l)) legs (map g S)
  = map (fun s => fold_left (fun total l => total + leg_point s l) legs (g s)) S.
Proof.
  revert g.
  induction legs as [|l legs IH]; intros g; simpl; [reflexivity|].
  rewrite leg_payoff_map, np_add_map.
  apply IH.
Qed.

Lemma calculate_payoff_map (S : list Q) (legs : list leg) :
  calculate_payoff S legs = map (fun s => payoff_point s legs) S.
Proof.
  unfold calculate_payoff, np_zeros_like, payoff_point.
  apply payoff_fold_map.
Qed.

Lemma fold_left_plus_sumQ {A : Type} (f : A -> Q) (xs : list A) (a : Q) :
  fold_left (fun total x => total + f x) xs a == a + Spec.sumQ (map f xs).
Proof.
  revert a.
  induction xs as [|x xs IH]; intros a; simpl.
  - ring.
  - rewrite IH. ring.
Qed.

Lemma py_sum_sumQ (xs : list Q) : py_sum xs == Spec.sumQ xs.
Proof.
  unfold py_sum.
  assert (G : forall a, fold_left Qplus xs a == a + Spec.sumQ xs).
  { induction xs as [|x xs IH]; intros a; simpl.
    - ring.
    - rewrite IH. ring. }
  rewrite G. ring.
Qed.

Lemma sumQ_ext {A : Type} (f g : A -> Q) (xs : list A) :
  (forall x, f x == g x) -> Spec.sumQ (map f xs) == Spec.sumQ (map g xs).
Proof.
  intros E.
  induction xs as [|x xs IH]; simpl; [reflexivity|].
  now rewrite IH, E.
Qed.

Lemma Forall2_map_Qeq {A : Type} (f g : A -> Q) (xs : list A) :
  (forall x, f x == g x) -> Forall2 Qeq (map f xs) (map g xs).
Proof.
  intros E.
  induction xs; simpl; constructor; auto.
Qed.

End Arrays.

(** ** Payoff *)

Lemma leg_point_read (s : Q) (l : leg) :
  leg_point s l == Spec.signedIntrinsic s (Spec.read_leg l).
Proof.
  unfold leg_point, Spec.signedIntrinsic, Spec.intrinsic, Spec.read_leg,
    Spec.read_class, Spec.read_direction; simpl.
  destruct (startswith (type l) "long"), (str_in "call" (type l)); simpl; ring.
Qed.

Lemma payoff_point_read (s : Q) (legs : list leg) :
  payoff_point s legs == Spec.intrinsicPayoff s (map Spec.read_leg legs).
Proof.
  unfold payoff_point, Spec.intrinsicPayoff.
  rewrite fold_left_plus_sumQ, map_map, Qplus_0_l.
  apply sumQ_ext. intros l. apply leg_point_read.
Qed.

Lemma read_to_leg (l : Spec.Leg) : Spec.read_leg (Spec.to_leg l) = l.
Proof.
  destruct l as [[] [] k p]; reflexivity.
Qed.

Lemma net_premium_points_to_leg (legs : list Spec.Leg) :
  net_premium_points (map Spec.to_leg legs) == Spec.netPremiumPerUnit legs.
Proof.
  unfold net_premium_points, Spec.netPremiumPerUnit.
  rewrite py_sum_sumQ, map_map.
  apply sumQ_ext. intros [[] [] k p]; reflexivity.
Qed.

(** C1. For every price array [S], every list of legs given by class,
    direction, strike and premium, and every multiplier [m], each element of
    [pnl_currency] is [(intrinsicPayoff + netPremiumPerUnit) * m] at its
    price, with the intrinsic value of a leg [max(0, S - K)] for a call and
    [max(0, K - S)] for a put, signed [+] for Long and [-] for Short, and the
    net premium the sum of [+premium] for Short legs and [-premium] for Long
    legs; a leg listed twice contributes twice. *)
Theorem pnl_currency_net_payoff :
  forall (S : list Q) (legs : list Spec.Leg) (m : Q),
    Forall2 Qeq (pnl_currency S (map Spec.to_leg legs) m)
                (map (fun s => Spec.netPayoffCurrency s legs m) S)
    /\ (forall (l : Spec.Leg),
          Forall2 Qeq (calculate_payoff S (map Spec.to_leg (l :: l :: legs)))
                      (map (fun s => 2 * Spec.signedIntrinsic s l
                                     + Spec.intrinsicPayoff s legs) S)).
Proof.
  intros S legs m. split.
  - unfold pnl_currency. rewrite calculate_payoff_map, map_map.
    apply Forall2_map_Qeq. intros s.
    unfold Spec.netPayoffCurrency.
    rewrite payoff_point_read, net_premium_points_to_leg, map_map.
    rewrite (map_ext _ (fun x => x) read_to_leg), map_id.
    reflexivity.
  - intros l. rewrite calculate_payoff_map.
    apply Forall2_map_Qeq. intros s.
    rewrite payoff_point_read, map_map.
    rewrite (map_ext _ (fun x => x) read_to_leg), map_id.
    unfold Spec.intrinsicPayoff; simpl. ring.
Qed.

(** C9. For every list of legs with numeric strike and premium and an
    arbitrary string tag, and every price array, [calculate_payoff] returns
    an array of the shape of [S] (it has no failing path): each element is
    the intrinsic payoff of the legs read with a tag not starting with
    "long" as Short and a tag not containing "call" as Put; the tag "x" is
    read as a short put. *)
Theorem calculate_payoff_any_tag :
  forall (S : list Q) (legs : list leg),
    List.length (calculate_payoff S legs) = List.length S
    /\ Forall2 Qeq (calculate_payoff S legs)
                   (map (fun s => Spec.intrinsicPayoff s (map Spec.read_leg legs)) S)
    /\ (forall t, startswith t "long" = false -> Spec.read_direction t = Spec.Short)
    /\ (forall t, str_in "call" t = false -> Spec.read_class t = Spec.Put)
    /\ (forall k p, Spec.read_leg (mkleg "x" k p) = Spec.mkLeg Spec.Put Spec.Short k p)
    /\ (forall k p, Forall2 Qeq (calculate_payoff S [mkleg "x" k p])
                                (map (fun s => - Qmax 0 (k - s)) S)).
Proof.
  intros S legs.
  rewrite calculate_payoff_map.
  split; [apply length_map|].
  split; [apply Forall2_map_Qeq; intros s; apply payoff_point_read|].
  split; [intros t H; unfold Spec.read_direction; now rewrite H|].
  split; [intros t H; unfold Spec.read_class; now rewrite H|].
  split; [reflexivity|].
  intros k p. rewrite calculate_payoff_map.
  apply Forall2_map_Qeq; intros s.
  unfold payoff_point, leg_point; simpl. ring.
Qed.

(** ** Capital basis and return on capital *)

(** C4. The capital basis is [abs(p)] when the net premium in currency [p]
    is negative (a net debit), and the margin [m] otherwise (net credit or
    exactly zero). *)
Theorem cost_basis_cases :
  forall (p m : Q),
    (p < 0 -> cost_basis p m = Qabs p)
    /\ (0 <= p -> cost_basis p m = m).
Proof.
  intros p m. unfold cost_basis.
  destruct (Qlt_le_dec p 0) as [Hlt|Hge]; split; intros H;
    try reflexivity; lra.
Qed.

Lemma cost_basis_cases_witness :
  cost_basis (-170) 0 = Qabs (-170) /\ cost_basis 180 1000 = 1000.
Proof.
  split.
  - apply (proj1 (cost_basis_cases (-170) 0)). reflexivity.
  - apply (proj2 (cost_basis_cases 180 1000)). discriminate.
Defined.

(** C5. With a positive basis the ROI series is [(pnl / basis) * 100]
    element by element; with a zero basis it is an array of the same shape
    whose every element is the undefined marker [nan].  [roi_per_point] has
    no failing path. *)
Theorem roi_per_point_cases :
  forall (pnl : list Q) (basis : Q),
    (0 < basis ->
       roi_per_point pnl basis = map (fun v => Finite ((v / basis) * 100)) pnl)
    /\ (basis == 0 ->
          roi_per_point pnl basis = repeat NaN (List.length pnl)
          /\ Forall (fun r => r = NaN) (roi_per_point pnl basis)).
Proof.
  intros pnl basis. unfold roi_per_point, np_full_like_nan.
  destruct (Qlt_le_dec 0 basis) as [Hpos|Hle]; split; intros H;
    try reflexivity; try lra.
  split.
  - induction pnl as [|v pnl IH]; simpl; [reflexivity|now rewrite IH].
  - apply Forall_forall. intros r Hin.
    apply in_map_iff in Hin. destruct Hin as [v [E _]]. now symmetry.
Qed.

Lemma roi_per_point_cases_witness :
  roi_per_point [-170; 830] 170
    = map (fun v => Finite ((v / 170) * 100)) [-170; 830]
  /\ roi_per_point [-170; 830] 0 = repeat NaN 2.
Proof.
  split.
  - apply (proj1 (roi_per_point_cases [-170; 830] 170)). reflexivity.
  - apply (proj2 (roi_per_point_cases [-170; 830] 0)). reflexivity.
Defined.

(** C6. With a positive basis the total ROI is [(maxProfit / basis) * 100]
    for a net debit (net premium in currency below zero) and
    [(netPremiumCurrency / basis) * 100] for a net credit (zero or above);
    with a zero basis it is the value positive infinity. *)
Theorem total_roi_cases :
  forall (max_profit net basis : Q),
    (0 < basis -> net < 0 ->
       total_roi max_profit net basis = Finite ((max_profit / basis) * 100))
    /\ (0 < basis -> 0 <= net ->
          total_roi max_profit net basis = Finite ((net / basis) * 100))
    /\ (basis == 0 -> total_roi max_profit net basis = Inf).
Proof.
  intros mp net basis. unfold total_roi.
  destruct (Qlt_le_dec net 0), (Qlt_le_dec 0 basis);
    repeat split; intros; try reflexivity; lra.
Qed.

Lemma total_roi_cases_witness :
  total_roi 830 (-170) 170 = Finite ((830 / 170) * 100)
  /\ total_roi 180 180 1000 = Finite ((180 / 1000) * 100)
  /\ total_roi 0 0 0 = Inf.
Proof.
  split; [|split].
  - apply (proj1 (total_roi_cases 830 (-170) 170)); reflexivity.
  - apply (proj1 (proj2 (total_roi_cases 180 180 1000))).
    + reflexivity.
    + discriminate.
  - apply (proj2 (proj2 (total_roi_cases 0 0 0))). reflexivity.
Defined.

(** ** Margin *)

Section Margin.

Variable multiplier : Q.

Lemma margin_gate_closed (name : string) (legs : list leg) :
  net_premium_points legs <= 0 -> calculate_us_margin name legs multiplier = Ok 0.
Proof.
  intros H. unfold calculate_us_margin.
  apply Qle_bool_iff in H. now rewrite H.
Qed.

Lemma margin_gate_open (legs : list leg) :
  0 < net_premium_points legs -> Qle_bool (net_premium_points legs) 0 = false.
Proof.
  intros H. destruct (Qle_bool (net_premium_points legs) 0) eqn:E; [|reflexivity].
  apply Qle_bool_iff in E. lra.
Qed.

Lemma margin_other_names (name : string) (legs : list leg) :
  name_in name ["Iron Condor"; "Bull Put Spread"; "Bear Call Spread"]%string = false ->
  calculate_us_margin name legs multiplier = Ok 0.
Proof.
  intros H. unfold calculate_us_margin. rewrite H.
  now destruct (Qle_bool (net_premium_points legs) 0).
Qed.

Lemma width_of_pair (a b : Q) :
  ((if Qlt_le_dec a b then b else a) - (if Qlt_le_dec b a then b else a)) * multiplier
  == (Qmax a b - Qmin a b) * multiplier.
Proof.
  destruct (Qlt_le_dec a b) as [Hab|Hba], (Qlt_le_dec b a) as [Hba'|Hab'].
  - lra.
  - rewrite (Q.max_r a b), (Q.min_l a b) by lra. reflexivity.
  - rewrite (Q.max_l a b), (Q.min_r a b) by lra. reflexivity.
  - rewrite (Q.max_l a b), (Q.min_r a b) by lra.
    assert (E : a == b) by lra. rewrite E. reflexivity.
Qed.

Lemma sorted_pair_width (a b : Q) :
  exists c0 c1,
    getitem (sorted [a; b]) 1 = Ok c1
    /\ getitem (sorted [a; b]) 0 = Ok c0
    /\ (c1 - c0) * multiplier == (Qmax a b - Qmin a b) * multiplier.
Proof.
  unfold sorted; simpl.
  destruct (Qlt_le_dec b a) as [Hba|Hab].
  - exists b, a. repeat split.
    rewrite (Q.max_l a b), (Q.min_r a b) by lra. reflexivity.
  - exists a, b. repeat split.
    rewrite (Q.max_r a b), (Q.min_l a b) by lra. reflexivity.
Qed.

Lemma width_swap (a b : Q) :
  (Qmax b a - Qmin b a) * multiplier == (Qmax a b - Qmin a b) * multiplier.
Proof.
  now rewrite (Q.max_comm b a), (Q.min_comm b a).
Qed.

(** An iron condor past the premium gate: the margin is the width between
    the two strikes of the legs whose tag contains "call". *)
Lemma iron_condor_call_width (legs : list leg) (kc1 kc2 : Q) :
  Permutation (map strike (filter (fun l => str_in "call" (type l)) legs)) [kc1; kc2] ->
  0 < net_premium_points legs ->
  exists v, calculate_us_margin "Iron Condor" legs multiplier = Ok v
            /\ v == (Qmax kc1 kc2 - Qmin kc1 kc2) * multiplier.
Proof.
  intros Hcalls Hnet. unfold calculate_us_margin.
  rewrite (margin_gate_open legs Hnet).
  change (name_in "Iron Condor" ["Iron Condor"; "Bull Put Spread"; "Bear Call Spread"]%string)
    with true.
  change (String.eqb "Iron Condor" "Iron Condor") with true. cbv iota.
  destruct legs as [|l legs].
  { simpl in Hcalls. apply Permutation_nil in Hcalls. discriminate. }
  cbn [map py_max py_min bind].
  apply Permutation_sym, Permutation_length_2_inv in Hcalls.
  destruct Hcalls as [E|E]; rewrite E.
  - destruct (sorted_pair_width kc1 kc2) as [c0 [c1 [H1 [H0 Hw]]]].
    rewrite H1, H0. simpl. eauto.
  - destruct (sorted_pair_width kc2 kc1) as [c0 [c1 [H1 [H0 Hw]]]].
    rewrite H1, H0. simpl. exists ((c1 - c0) * multiplier). split; [reflexivity|].
    rewrite Hw. apply width_swap.
Qed.

(** A two-leg credit vertical past the premium gate: the margin is the
    width between the two strikes. *)
Lemma credit_vertical_width (name : string) (l1 l2 : leg) :
  name = "Bull Put Spread"%string \/ name = "Bear Call Spread"%string ->
  0 < net_premium_points [l1; l2] ->
  exists v, calculate_us_margin name [l1; l2] multiplier = Ok v
            /\ v == (Qmax (strike l1) (strike l2) - Qmin (strike l1) (strike l2)) * multiplier.
Proof.
  intros Hname Hnet. unfold calculate_us_margin.
  rewrite (margin_gate_open _ Hnet).
  destruct Hname as [-> | ->]; cbn [name_in existsb String.eqb Ascii.eqb Bool.eqb orb];
    cbn [map py_max py_min bind fold_left];
    (eexists; split; [reflexivity|apply width_of_pair]).
Qed.

End Margin.

(** C2 fails as stated: an iron condor with put strikes 90/95 and call
    strikes 105/110 whose legs carry a net debit has margin 0, not the
    call-side width 500. *)
Lemma iron_condor_margin_counterexample :
  calculate_us_margin "Iron Condor"
    [mkleg "long_put" 90 2; mkleg "short_put" 95 (1 # 2);
     mkleg "short_call" 105 (1 # 2); mkleg "long_call" 110 2] 100 = Ok 0
  /\ ~ 0 == (110 - 105) * 100.
Proof.
  split; [reflexivity|discriminate].
Qed.

(** C2, amended. For an iron condor of four legs, two put strikes both
    below two call strikes, whose net premium per unit is strictly positive,
    the margin is [(higher call strike - lower call strike) * multiplier],
    the call-side width only; for put strikes 90/95, call strikes 105/110
    and multiplier 100 it is 500, not the full width 2000. *)
Theorem iron_condor_margin_call_side :
  (forall (legs : list leg) (kp1 kp2 kc1 kc2 m : Q),
     List.length legs = 4%nat ->
     Permutation (map strike (filter (fun l => negb (str_in "call" (type l))) legs))
                 [kp1; kp2] ->
     Permutation (map strike (filter (fun l => str_in "call" (type l)) legs))
                 [kc1; kc2] ->
     kp1 < kc1 -> kp1 < kc2 -> kp2 < kc1 -> kp2 < kc2 ->
     0 < net_premium_points legs ->
     exists v, calculate_us_margin "Iron Condor" legs m = Ok v
               /\ v == (Qmax kc1 kc2 - Qmin kc1 kc2) * m)
  /\ (forall (legs : list leg),
        List.length legs = 4%nat ->
        Permutation (map strike (filter (fun l => negb (str_in "call" (type l))) legs))
                    [90; 95] ->
        Permutation (map strike (filter (fun l => str_in "call" (type l)) legs))
                    [105; 110] ->
        0 < net_premium_points legs ->
        exists v, calculate_us_margin "Iron Condor" legs 100 = Ok v
                  /\ v == 500 /\ ~ v == 2000).
Proof.
  split.
  - intros legs kp1 kp2 kc1 kc2 m _ _ Hcalls _ _ _ _ Hnet.
    now apply iron_condor_call_width.
  - intros legs _ _ Hcalls Hnet.
    destruct (iron_condor_call_width 100 legs 105 110 Hcalls Hnet) as [v [E Hv]].
    exists v. split; [exact E|].
    split; rewrite Hv; [reflexivity|discriminate].
Qed.

Lemma iron_condor_margin_call_side_witness :
  (exists v,
     calculate_us_margin "Iron Condor"
       [mkleg "short_call" 105 (9 # 5); mkleg "long_put" 90 (1 # 2);
        mkleg "long_call" 110 (3 # 5); mkleg "short_put" 95 (3 # 2)] 100 = Ok v
     /\ v == (Qmax 110 105 - Qmin 110 105) * 100)
  /\ (exists v,
        calculate_us_margin "Iron Condor"
          [mkleg "long_put" 90 (1 # 2); mkleg "short_put" 95 (3 # 2);
           mkleg "short_call" 105 (9 # 5); mkleg "long_call" 110 (3 # 5)] 100 = Ok v
        /\ v == 500 /\ ~ v == 2000).
Proof.
  split.
  - apply (proj1 iron_condor_margin_call_side _ 95 90 110 105 100).
    + reflexivity.
    + apply perm_swap.
    + apply perm_swap.
    + reflexivity.
    + reflexivity.
    + reflexivity.
    + reflexivity.
    + reflexivity.
  - apply (proj2 iron_condor_margin_call_side).
    + reflexivity.
    + apply Permutation_refl.
    + apply Permutation_refl.
    + reflexivity.
Defined.

(** C7 fails as stated: a Bull Put Spread whose two legs carry a net debit
    has margin 0, not the strike width times the multiplier. *)
Lemma credit_vertical_margin_counterexample :
  calculate_us_margin "Bull Put Spread"
    [mkleg "short_put" 100 1; mkleg "long_put" 90 3] 100 = Ok 0
  /\ ~ 0 == (100 - 90) * 100.
Proof.
  split; [reflexivity|discriminate].
Qed.

(** C7, amended. For the names Bull Put Spread and Bear Call Spread, any
    two legs of distinct strikes whose net premium per unit is strictly
    positive, and any multiplier, the margin is
    [(highest strike - lowest strike) * multiplier]; for every name outside
    the three credit shapes the margin is 0 whatever the legs. *)
Theorem credit_vertical_margin :
  (forall (name : string) (l1 l2 : leg) (m : Q),
     name = "Bull Put Spread"%string \/ name = "Bear Call Spread"%string ->
     ~ strike l1 == strike l2 ->
     0 < net_premium_points [l1; l2] ->
     exists v, calculate_us_margin name [l1; l2] m = Ok v
               /\ v == (Qmax (strike l1) (strike l2) - Qmin (strike l1) (strike l2)) * m)
  /\ (forall (name : string) (legs : list leg) (m : Q),
        name <> "Iron Condor"%string ->
        name <> "Bull Put Spread"%string ->
        name <> "Bear Call Spread"%string ->
        calculate_us_margin name legs m = Ok 0).
Proof.
  split.
  - intros name l1 l2 m Hname _ Hnet. now apply credit_vertical_width.
  - intros name legs m H1 H2 H3. apply margin_other_names.
    unfold name_in; simpl.
    apply String.eqb_neq in H1, H2, H3. now rewrite H1, H2, H3.
Qed.

Lemma credit_vertical_margin_witness :
  (exists v,
     calculate_us_margin "Bull Put Spread"
       [mkleg "short_put" 100 3; mkleg "long_put" 90 (6 # 5)] 100 = Ok v
     /\ v == (Qmax 100 90 - Qmin 100 90) * 100)
  /\ calculate_us_margin "Bull Call Spread"
       [mkleg "long_call" 100 (5 # 2); mkleg "short_call" 110 (4 # 5)] 100 = Ok 0.
Proof.
  split.
  - apply (proj1 credit_vertical_margin).
    + left; reflexivity.
    + discriminate.
    + reflexivity.
  - apply (proj2 credit_vertical_margin); discriminate.
Defined.

(** C10. For every strategy name, the three credit shapes included, and
    every leg list, the margin is 0 whenever the net premium per unit (the
    premiums of the legs whose tag starts with "short" minus the premiums
    of the other legs) is at most zero; a margin other than 0 is returned
    only when that net premium is strictly positive. *)
Theorem margin_zero_without_credit :
  forall (name : string) (legs : list leg) (m : Q),
    (net_premium_points legs <= 0 -> calculate_us_margin name legs m = Ok 0)
    /\ (forall v, calculate_us_margin name legs m = Ok v -> ~ v == 0 ->
                  0 < net_premium_points legs)
    /\ net_premium_points legs
       == Spec.sumQ (map premium (filter (fun l => startswith (type l) "short") legs))
          - Spec.sumQ (map premium
                         (filter (fun l => negb (startswith (type l) "short")) legs)).
Proof.
  intros name legs m. split; [apply margin_gate_closed|]. split.
  - intros v E Hv.
    destruct (Qlt_le_dec 0 (net_premium_points legs)) as [Hpos|Hle]; [exact Hpos|].
    rewrite (margin_gate_closed m name legs Hle) in E.
    injection E as <-. exfalso. now apply Hv.
  - unfold net_premium_points. rewrite py_sum_sumQ.
    induction legs as [|l legs IH]; simpl; [ring|].
    rewrite IH. destruct (startswith (type l) "short"); simpl; ring.
Qed.

Lemma margin_zero_without_credit_witness :
  calculate_us_margin "Iron Condor"
    [mkleg "long_put" 90 2; mkleg "short_put" 95 (1 # 2);
     mkleg "short_call" 105 (1 # 2); mkleg "long_call" 110 2] 100 = Ok 0
  /\ 0 < net_premium_points [mkleg "short_put" 100 3; mkleg "long_put" 90 (6 # 5)].
Proof.
  split.
  - apply (proj1 (margin_zero_without_credit "Iron Condor" _ 100)).
    discriminate.
  - apply (proj1 (proj2 (margin_zero_without_credit "Bull Put Spread" _ 100)) 1000).
    + reflexivity.
    + discriminate.
Defined.

(** ** The price grid *)

Section Grid.

Variables start stop step : Q.
Hypothesis step_pos : 0 < step.

Let count : Z := Qceiling ((stop - start) / step).
Let point (i : nat) : Q := start + inject_Z (Z.of_nat i) * step.

Lemma np_arange_points :
  np_arange start stop step = Ok (map point (seq 0 (Z.to_nat count))).
Proof.
  unfold np_arange.
  destruct (Qeq_bool step 0) eqn:E; [|reflexivity].
  apply Qeq_bool_iff in E. lra.
Qed.

Lemma span_div : (stop - start) / step * step == stop - start.
Proof.
  field. lra.
Qed.

Lemma point_lt (i j : nat) : (i < j)%nat -> point i < point j.
Proof.
  intros H. unfold point.
  assert (L : inject_Z (Z.of_nat i) < inject_Z (Z.of_nat j)).
  { rewrite <- Zlt_Qlt. lia. }
  nra.
Qed.

Lemma count_pos : start < stop -> (0 < count)%Z.
Proof.
  intros H.
  pose proof (Qle_ceiling ((stop - start) / step)) as C. fold count in C.
  pose proof span_div as D.
  rewrite Zlt_Qlt.
  assert (P : 0 < (stop - start) / step) by nra.
  change (inject_Z 0) with 0. lra.
Qed.

Lemma points_increasing (a n : nat) :
  StronglySorted Qlt (map point (seq a n)).
Proof.
  revert a.
  induction n as [|n IH]; intros a; simpl; constructor.
  - apply IH.
  - apply Forall_forall. intros y Hy.
    apply in_map_iff in Hy. destruct Hy as [j [<- Hj]].
    apply in_seq in Hj. apply point_lt. lia.
Qed.

Lemma points_nth (n i : nat) :
  (i < n)%nat -> nth i (map point (seq 0 n)) 0 = point i.
Proof.
  intros H.
  rewrite (nth_indep _ 0 (point 0)) by (rewrite length_map, length_seq; exact H).
  rewrite (map_nth point), seq_nth by exact H.
  reflexivity.
Qed.

(** The grid of a well-formed range. *)
Lemma np_arange_well_formed :
  start < stop ->
  exists g,
    np_arange start stop step = Ok g
    /\ (exists x0 t, g = x0 :: t /\ x0 == start)
    /\ (forall i, (S i < List.length g)%nat -> nth (S i) g 0 == nth i g 0 + step)
    /\ Spec.strictlyIncreasing g.
Proof.
  intros Hlt.
  pose proof (count_pos Hlt) as Hc.
  exists (map point (seq 0 (Z.to_nat count))).
  split; [apply np_arange_points|].
  split.
  { destruct (Z.to_nat count) as [|n] eqn:E; [lia|].
    simpl. exists (point 0), (map point (seq 1 n)). split; [reflexivity|].
    unfold point; simpl. ring. }
  split; [|apply points_increasing].
  intros i Hi. rewrite length_map, length_seq in Hi.
  rewrite !points_nth by lia. unfold point.
  rewrite Nat2Z.inj_succ. unfold Z.succ. rewrite inject_Z_plus. ring.
Qed.

End Grid.

Lemma py_min_le_first (x : Q) (t : list Q) :
  fold_left (fun cur y => if Qlt_le_dec y cur then y else cur) t x <= x.
Proof.
  revert x.
  induction t as [|y t IH]; intros x; simpl; [lra|].
  destruct (Qlt_le_dec y x) as [H|H]; [|apply IH].
  specialize (IH y). lra.
Qed.

Lemma py_max_ge_first (x : Q) (t : list Q) :
  x <= fold_left (fun cur y => if Qlt_le_dec cur y then y else cur) t x.
Proof.
  revert x.
  induction t as [|y t IH]; intros x; simpl; [lra|].
  destruct (Qlt_le_dec x y) as [H|H]; [|apply IH].
  specialize (IH y). lra.
Qed.

Lemma buffer_pos (mn mx : Q) : 0 < buffer mn mx.
Proof.
  unfold buffer. destruct (Qlt_le_dec mn mx); lra.
Qed.

Section GridBinary64.

Import PrimFloat.


End GridBinary64.



(** ** Break-even points *)

Section BreakEven.

Lemma getitem_nth (xs : list Q) (i : nat) :
  (i < List.length xs)%nat -> getitem xs i = Ok (nth i xs 0).
Proof.
  intros H. unfold getitem.
  destruct (nth_error xs i) as [x|] eqn:E.
  - now rewrite (nth_error_nth xs i 0 E).
  - apply nth_error_None in E. lia.
Qed.

Lemma sign_diff_sameSign (a b : Q) :
  Qeq_bool (sign b - sign a) 0 = Spec.sameSign a b.
Proof.
  destruct a as [[|na|na] da], b as [[|nb|nb] db]; reflexivity.
Qed.

Lemma length_np_diff (a : list Q) :
  List.length (np_diff a) = (List.length a - 1)%nat.
Proof.
  induction a as [|x [|y t] IH]; simpl in *; try reflexivity.
  rewrite IH. lia.
Qed.

(** The indices selected by [np.where(np.diff(np.sign(PnL)))[0]], numbered
    from [k]. *)
Lemma nonzero_from_sign_diff (pnl : list Q) (k : nat) :
  nonzero_from k (np_diff (np_sign pnl))
  = filter (fun i => negb (Spec.sameSign (nth (i - k) pnl 0) (nth (i - k + 1) pnl 0)))
           (seq k (List.length pnl - 1)).
Proof.
  revert k.
  induction pnl as [|x [|y t] IH]; intros k; try reflexivity.
  change (np_diff (np_sign (x :: y :: t)))
    with ((sign y - sign x) :: np_diff (np_sign (y :: t))).
  cbn [nonzero_from].
  rewrite (IH (S k)), sign_diff_sameSign.
  assert (E : filter (fun i => negb (Spec.sameSign (nth (i - S k) (y :: t) 0)
                                                   (nth (i - S k + 1) (y :: t) 0)))
                     (seq (S k) (List.length (y :: t) - 1))
              = filter (fun i => negb (Spec.sameSign (nth (i - k) (x :: y :: t) 0)
                                                     (nth (i - k + 1) (x :: y :: t) 0)))
                       (seq (S k) (List.length (y :: t) - 1))).
  { apply filter_ext_in. intros i Hi. apply in_seq in Hi.
    replace (i - k)%nat with (S (i - S k)) by lia. reflexivity. }
  rewrite E.
  replace (List.length (x :: y :: t) - 1)%nat with (S (List.length (y :: t) - 1))
    by (simpl; lia).
  cbn [seq filter].
  rewrite Nat.sub_diag.
  change (nth (0 + 1) (x :: y :: t) 0) with y.
  change (nth 0 (x :: y :: t) 0) with x.
  destruct (Spec.sameSign x y); reflexivity.
Qed.

Lemma np_where_sign_diff (pnl : list Q) :
  np_where (np_diff (np_sign pnl))
  = filter (fun i => negb (Spec.sameSign (nth i pnl 0) (nth (i + 1) pnl 0)))
           (seq 0 (List.length pnl - 1)).
Proof.
  unfold np_where. rewrite nonzero_from_sign_diff.
  apply filter_ext. intros i. now rewrite Nat.sub_0_r.
Qed.

(** The comprehension, when every visited index has a right neighbour. *)
Lemma break_evens_over_in_range (prices pnl : list Q) (indices : list nat) :
  List.length prices = List.length pnl ->
  Forall (fun i => (i + 1 < List.length pnl)%nat) indices ->
  break_evens_over prices pnl indices
  = Ok (map (Spec.interpolate prices pnl)
            (filter (fun i => negb (Qeq_bool (nth (i + 1) pnl 0 - nth i pnl 0) 0)) indices)).
Proof.
  intros Hlen Hall.
  induction Hall as [|i rest Hi Hrest IH]; [reflexivity|].
  cbn [break_evens_over filter].
  rewrite (getitem_nth pnl (i + 1)), (getitem_nth pnl i) by lia.
  cbn [bind].
  destruct (Qeq_bool (nth (i + 1) pnl 0 - nth i pnl 0) 0); cbn [negb].
  - exact IH.
  - rewrite (getitem_nth prices i), (getitem_nth prices (i + 1)) by lia.
    cbn [bind]. rewrite IH. reflexivity.
Qed.

Lemma filter_filter_andb {A : Type} (f g : A -> bool) (xs : list A) :
  filter g (filter f xs) = filter (fun x => f x && g x) xs.
Proof.
  induction xs as [|x xs IH]; simpl; [reflexivity|].
  destruct (f x); simpl; [destruct (g x)|]; now rewrite IH.
Qed.

Lemma find_break_even_points_eq (prices pnl : list Q) :
  List.length prices = List.length pnl ->
  find_break_even_points prices pnl = Ok (Spec.findCrossings prices pnl).
Proof.
  intros Hlen. unfold find_break_even_points, Spec.findCrossings.
  rewrite np_where_sign_diff, break_evens_over_in_range.
  - now rewrite filter_filter_andb.
  - exact Hlen.
  - apply Forall_forall. intros i Hi.
    apply filter_In in Hi. destruct Hi as [Hi _]. apply in_seq in Hi. lia.
Qed.

End BreakEven.

Section Ascending.

(** Turns the outcome of a comparison with [?=] into the order fact. *)
Ltac bucket_facts :=
  repeat match goal with
         | H : (_ ?= _) = Eq |- _ => apply Qeq_alt in H
         | H : (_ ?= _) = Lt |- _ => apply Qlt_alt in H
         | H : (_ ?= _) = Gt |- _ => apply Qgt_alt in H
         end.

Lemma sameSign_buckets (a b : Q) :
  Spec.sameSign a b = true <-> Spec.signBucket a = Spec.signBucket b.
Proof.
  unfold Spec.sameSign.
  destruct (Spec.signBucket a), (Spec.signBucket b); split; congruence.
Qed.

(** A crossing lies between the two grid points it is interpolated from. *)
Lemma crossing_between (a b s0 s1 : Q) :
  Spec.sameSign a b = false -> s0 < s1 ->
  s0 <= s0 - a * (s1 - s0) / (b - a) /\ s0 - a * (s1 - s0) / (b - a) <= s1.
Proof.
  intros Hs Hlt. unfold Spec.sameSign, Spec.signBucket in Hs.
  assert (Hne : ~ b - a == 0).
  { destruct (a ?= 0) eqn:Ea, (b ?= 0) eqn:Eb; try discriminate;
      bucket_facts; lra. }
  set (u := a * (s1 - s0) / (b - a)).
  assert (Hu : u * (b - a) == a * (s1 - s0)) by (unfold u; field; exact Hne).
  destruct (a ?= 0) eqn:Ea, (b ?= 0) eqn:Eb; try discriminate;
    bucket_facts; split; nra.
Qed.

Lemma strictly_increasing_nth (xs : list Q) (i j : nat) :
  Spec.strictlyIncreasing xs -> (i < j)%nat -> (j < List.length xs)%nat ->
  nth i xs 0 < nth j xs 0.
Proof.
  intros Hs. revert i j.
  induction Hs as [|x xs Hs IH Hx]; intros i j Hij Hj; simpl in Hj; [lia|].
  destruct j as [|j]; [lia|].
  destruct i as [|i]; simpl.
  - rewrite Forall_forall in Hx. apply Hx, nth_In. lia.
  - apply IH; lia.
Qed.

Lemma filter_seq_increasing (f : nat -> bool) (a n : nat) :
  StronglySorted lt (filter f (seq a n)).
Proof.
  revert a.
  induction n as [|n IH]; intros a; simpl; [constructor|].
  destruct (f a); [|apply IH].
  constructor; [apply IH|].
  apply Forall_forall. intros j Hj.
  apply filter_In in Hj. destruct Hj as [Hj _]. apply in_seq in Hj. lia.
Qed.

(** Values enclosed in consecutive, non-overlapping intervals are in
    ascending order. *)
Lemma map_between_ascending (f lo hi : nat -> Q) (idx : list nat) :
  StronglySorted lt idx ->
  (forall i, In i idx -> lo i <= f i /\ f i <= hi i) ->
  (forall i j, In i idx -> In j idx -> (i < j)%nat -> hi i <= lo j) ->
  Spec.ascending (map f idx).
Proof.
  intros Hs. unfold Spec.ascending.
  induction Hs as [|i idx Hs IH Hi]; intros Hin Hsep; simpl; constructor.
  - apply IH.
    + intros k Hk. apply Hin. now right.
    + intros k j Hk Hj. apply Hsep; now right.
  - apply Forall_forall. intros y Hy.
    apply in_map_iff in Hy. destruct Hy as [j [<- Hj]].
    rewrite Forall_forall in Hi.
    pose proof (Hin i (or_introl eq_refl)) as [_ Hhi].
    pose proof (Hin j (or_intror Hj)) as [Hlo _].
    pose proof (Hsep i j (or_introl eq_refl) (or_intror Hj) (Hi j Hj)).
    lra.
Qed.

Lemma findCrossings_ascending (prices pnl : list Q) :
  List.length prices = List.length pnl ->
  Spec.strictlyIncreasing prices ->
  Spec.ascending (Spec.findCrossings prices pnl).
Proof.
  intros Hlen Hinc. unfold Spec.findCrossings.
  apply (map_between_ascending _ (fun i => nth i prices 0) (fun i => nth (i + 1) prices 0)).
  - apply filter_seq_increasing.
  - intros i Hi. apply filter_In in Hi. destruct Hi as [Hi Hc].
    apply in_seq in Hi. unfold Spec.crossing in Hc.
    apply andb_prop in Hc. destruct Hc as [Hc _].
    apply negb_true_iff in Hc.
    unfold Spec.interpolate.
    apply crossing_between; [exact Hc|].
    apply strictly_increasing_nth; [exact Hinc|lia|lia].
  - intros i j Hi Hj Hij.
    apply filter_In in Hj. destruct Hj as [Hj _]. apply in_seq in Hj.
    destruct (Nat.eq_dec (i + 1) j) as [<-|Hne]; [lra|].
    apply Qlt_le_weak, strictly_increasing_nth; [exact Hinc|lia|lia].
Qed.

Lemma findCrossings_flat (prices pnl : list Q) :
  (forall i, (i + 1 < List.length pnl)%nat ->
             Spec.signBucket (nth i pnl 0) = Spec.signBucket (nth (i + 1) pnl 0)) ->
  Spec.findCrossings prices pnl = [].
Proof.
  intros Hflat. unfold Spec.findCrossings.
  replace (filter (Spec.crossing pnl) (seq 0 (List.length pnl - 1))) with (@nil nat);
    [reflexivity|].
  symmetry. rewrite <- (filter_false (seq 0 (List.length pnl - 1))).
  apply filter_ext_in. intros i Hi. apply in_seq in Hi.
  unfold Spec.crossing.
  assert (E : Spec.sameSign (nth i pnl 0) (nth (i + 1) pnl 0) = true).
  { apply sameSign_buckets, Hflat. lia. }
  now rewrite E.
Qed.

End Ascending.

(** C3. For equal-length sequences [prices] and [pnl],
    [find_break_even_points] returns, without error, exactly one value for
    each adjacent index pair [i], [i+1] whose signs differ (zero being its
    own sign) and whose denominator [pnl[i+1] - pnl[i]] is not zero, namely
    [prices[i] - pnl[i] * (prices[i+1] - prices[i]) / (pnl[i+1] - pnl[i])],
    by ascending index; pairs with a zero denominator contribute nothing;
    with [prices] strictly increasing the values are in ascending order; and
    a curve with no sign change yields the empty sequence. *)
Theorem find_break_even_points_crossings :
  forall (prices pnl : list Q),
    List.length prices = List.length pnl ->
    find_break_even_points prices pnl
    = Ok (map (Spec.interpolate prices pnl)
              (filter (Spec.crossing pnl) (seq 0 (List.length pnl - 1))))
    /\ (forall i, Spec.crossing pnl i = true <->
                  Spec.signBucket (nth i pnl 0) <> Spec.signBucket (nth (i + 1) pnl 0)
                  /\ ~ nth (i + 1) pnl 0 - nth i pnl 0 == 0)
    /\ (Spec.strictlyIncreasing prices ->
        exists r, find_break_even_points prices pnl = Ok r /\ Spec.ascending r)
    /\ ((forall i, (i + 1 < List.length pnl)%nat ->
                   Spec.signBucket (nth i pnl 0) = Spec.signBucket (nth (i + 1) pnl 0)) ->
        find_break_even_points prices pnl = Ok []).
Proof.
  intros prices pnl Hlen.
  pose proof (find_break_even_points_eq prices pnl Hlen) as E.
  split; [exact E|]. split; [|split].
  - intros i. unfold Spec.crossing.
    rewrite andb_true_iff, !negb_true_iff.
    rewrite <- not_true_iff_false, sameSign_buckets.
    rewrite <- not_true_iff_false, Qeq_bool_iff. reflexivity.
  - intros Hinc. exists (Spec.findCrossings prices pnl).
    split; [exact E|now apply findCrossings_ascending].
  - intros Hflat. rewrite E. f_equal. now apply findCrossings_flat.
Qed.

Lemma find_break_even_points_crossings_witness :
  (exists r, find_break_even_points [100; 102; 104] [-170; 30; 30] = Ok r
             /\ Forall2 Qeq r [1017 # 10])
  /\ (exists r, find_break_even_points [100; 102; 104] [-170; 30; 30] = Ok r
                /\ Spec.ascending r)
  /\ find_break_even_points [100; 102; 104] [5; 5; 5] = Ok [].
Proof.
  split; [|split].
  - eexists. split.
    + apply (proj1 (find_break_even_points_crossings
                      [100; 102; 104] [-170; 30; 30] eq_refl)).
    + repeat constructor.
  - apply (proj1 (proj2 (proj2
             (find_break_even_points_crossings [100; 102; 104] [-170; 30; 30] eq_refl)))).
    repeat constructor.
  - apply (proj2 (proj2 (proj2
             (find_break_even_points_crossings [100; 102; 104] [5; 5; 5] eq_refl)))).
    intros [|[|i]] Hi; simpl in Hi; try reflexivity; lia.
Defined.

Lemma calculate_payoff_any_tag_witness :
  Spec.read_direction "x" = Spec.Short /\ Spec.read_class "x" = Spec.Put.
Proof.
  pose proof (calculate_payoff_any_tag [100; 110] [mkleg "x" 105 2]) as [_ [_ [Hd [Hc _]]]].
  split.
  - apply Hd. reflexivity.
  - apply Hc. reflexivity.
Defined.

(** * Further properties of the program *)

(** ** Payoff: composition over the legs *)

Section PayoffComposition.

Lemma sumQ_app (xs ys : list Q) :
  Spec.sumQ (xs ++ ys) == Spec.sumQ xs + Spec.sumQ ys.
Proof.
  induction xs as [|x xs IH]; simpl; [ring|].
  rewrite IH. ring.
Qed.

Lemma sumQ_permutation (xs ys : list Q) :
  Permutation xs ys -> Spec.sumQ xs == Spec.sumQ ys.
Proof.
  intros P.
  induction P as [|x xs ys P IH|x y xs|xs ys zs P1 IH1 P2 IH2]; simpl.
  - reflexivity.
  - now rewrite IH.
  - ring.
  - now rewrite IH1.
Qed.

Lemma payoff_point_sumQ (s : Q) (legs : list leg) :
  payoff_point s legs == Spec.sumQ (map (leg_point s) legs).
Proof.
  unfold payoff_point. rewrite fold_left_plus_sumQ. ring.
Qed.

Lemma net_premium_points_sumQ (legs : list leg) :
  net_premium_points legs
  == Spec.sumQ (map (fun l => if startswith (type l) "short" then premium l else - premium l)
                    legs).
Proof.
  unfold net_premium_points. apply py_sum_sumQ.
Qed.

Lemma pnl_currency_map (S : list Q) (legs : list leg) (m : Q) :
  pnl_currency S legs m
  = map (fun s => (payoff_point s legs + net_premium_points legs) * m) S.
Proof.
  unfold pnl_currency. now rewrite calculate_payoff_map, map_map.
Qed.

End PayoffComposition.

(** X1. The payoff of two leg lists put together is the elementwise sum of
    their payoffs. *)
Theorem calculate_payoff_app :
  forall (S : list Q) (legs1 legs2 : list leg),
    Forall2 Qeq (calculate_payoff S (legs1 ++ legs2))
                (np_add (calculate_payoff S legs1) (calculate_payoff S legs2)).
Proof.
  intros S legs1 legs2.
  rewrite !calculate_payoff_map, np_add_map.
  apply Forall2_map_Qeq. intros s.
  rewrite !payoff_point_sumQ, map_app. apply sumQ_app.
Qed.

(** X2. The order of the legs does not matter: reordering them changes
    neither the net premium nor any element of the payoff and of the net
    currency curve. *)
Theorem pnl_currency_permutation :
  forall (S : list Q) (legs1 legs2 : list leg) (m : Q),
    Permutation legs1 legs2 ->
    net_premium_points legs1 == net_premium_points legs2
    /\ Forall2 Qeq (calculate_payoff S legs1) (calculate_payoff S legs2)
    /\ Forall2 Qeq (pnl_currency S legs1 m) (pnl_currency S legs2 m).
Proof.
  intros S legs1 legs2 m P.
  assert (Hn : net_premium_points legs1 == net_premium_points legs2).
  { rewrite !net_premium_points_sumQ.
    apply sumQ_permutation, Permutation_map, P. }
  assert (Hp : forall s, payoff_point s legs1 == payoff_point s legs2).
  { intros s. rewrite !payoff_point_sumQ.
    apply sumQ_permutation, Permutation_map, P. }
  split; [exact Hn|]. split.
  - rewrite !calculate_payoff_map. now apply Forall2_map_Qeq.
  - rewrite !pnl_currency_map. apply Forall2_map_Qeq. intros s.
    now rewrite Hn, Hp.
Qed.

Lemma pnl_currency_permutation_witness :
  Forall2 Qeq
    (pnl_currency [95; 105]
       [mkleg "long_call" 100 (5 # 2); mkleg "short_call" 110 (4 # 5)] 100)
    (pnl_currency [95; 105]
       [mkleg "short_call" 110 (4 # 5); mkleg "long_call" 100 (5 # 2)] 100).
Proof.
  apply (pnl_currency_permutation [95; 105] _ _ 100).
  apply perm_swap.
Defined.

Lemma long_not_short (t : string) :
  startswith t "long" = true -> startswith t "short" = false.
Proof.
  unfold startswith. intros H.
  destruct t as [|c t]; [discriminate H|].
  cbn [String.prefix] in *.
  destruct (ascii_dec "l" c) as [<-|]; [|discriminate H].
  destruct (ascii_dec "s" "l") as [E|]; [discriminate E|reflexivity].
Qed.

(** X3. For legs whose tag starts with "long" or with "short", whatever
    follows, the payoff loop and the premium sum read the same direction:
    the net currency curve is the specification's formula on the legs as
    read from their tags. *)
Theorem pnl_currency_prefixed_tags :
  forall (S : list Q) (legs : list leg) (m : Q),
    Forall (fun l => startswith (type l) "long" = true
                     \/ startswith (type l) "short" = true) legs ->
    Forall2 Qeq (pnl_currency S legs m)
                (map (fun s => Spec.netPayoffCurrency s (map Spec.read_leg legs) m) S).
Proof.
  intros S legs m Htags.
  rewrite pnl_currency_map. apply Forall2_map_Qeq. intros s.
  unfold Spec.netPayoffCurrency.
  rewrite payoff_point_read, net_premium_points_sumQ.
  unfold Spec.netPremiumPerUnit. rewrite map_map.
  assert (E : Spec.sumQ (map (fun l => if startswith (type l) "short"
                                       then premium l else - premium l) legs)
              == Spec.sumQ (map (fun l => match Spec.leg_direction (Spec.read_leg l) with
                                          | Spec.Short => Spec.leg_premium (Spec.read_leg l)
                                          | Spec.Long => - Spec.leg_premium (Spec.read_leg l)
                                          end) legs)).
  { induction Htags as [|l legs Hl _ IH]; simpl; [reflexivity|].
    rewrite IH. unfold Spec.read_direction.
    destruct Hl as [Hl|Hl].
    - now rewrite Hl, (long_not_short _ Hl).
    - rewrite Hl. destruct (startswith (type l) "long") eqn:E; [|reflexivity].
      apply long_not_short in E. congruence. }
  now rewrite E.
Qed.

Lemma pnl_currency_prefixed_tags_witness :
  Forall2 Qeq
    (pnl_currency [95; 105] [mkleg "long call" 100 (5 # 2); mkleg "short_c" 110 1] 100)
    (map (fun s => Spec.netPayoffCurrency s
                     (map Spec.read_leg
                          [mkleg "long call" 100 (5 # 2); mkleg "short_c" 110 1]) 100)
         [95; 105]).
Proof.
  apply pnl_currency_prefixed_tags.
  apply Forall_cons; [left; reflexivity|].
  apply Forall_cons; [right; reflexivity|].
  apply Forall_nil.
Defined.

(** X4. A leg whose tag starts with neither "long" nor "short" is taken
    both ways: the payoff loop subtracts its intrinsic value, as for a
    short leg, and the premium sum subtracts its premium, as for a long
    leg. *)
Theorem pnl_currency_unprefixed_tag :
  forall (s : Q) (l : leg) (m : Q),
    startswith (type l) "long" = false ->
    startswith (type l) "short" = false ->
    exists v, pnl_currency [s] [l] m = [v]
              /\ v == (- Spec.intrinsic s (Spec.read_leg l) - premium l) * m.
Proof.
  intros s l m Hlong Hshort.
  rewrite pnl_currency_map. simpl. eexists. split; [reflexivity|].
  rewrite payoff_point_read, net_premium_points_sumQ. simpl.
  unfold Spec.signedIntrinsic, Spec.read_leg, Spec.read_direction; simpl.
  rewrite Hlong, Hshort.
  unfold Spec.intrinsicPayoff, Spec.signedIntrinsic; simpl. ring.
Qed.

Lemma pnl_currency_unprefixed_tag_witness :
  exists v, pnl_currency [90] [mkleg "x" 100 2] 100 = [v]
            /\ v == (- Spec.intrinsic 90 (Spec.read_leg (mkleg "x" 100 2)) - 2) * 100.
Proof.
  apply (pnl_currency_unprefixed_tag 90 (mkleg "x" 100 2) 100); reflexivity.
Defined.

(** ** Margin: failure and sign *)

Section MarginEdges.

Lemma length_insert_sorted (x : Q) (xs : list Q) :
  List.length (insert_sorted x xs) = S (List.length xs).
Proof.
  induction xs as [|y t IH]; simpl; [reflexivity|].
  destruct (Qlt_le_dec x y); simpl; [reflexivity|now rewrite IH].
Qed.

Lemma length_sorted (xs : list Q) : List.length (sorted xs) = List.length xs.
Proof.
  unfold sorted. rewrite <- (length_rev xs).
  induction (rev xs) as [|y t IH]; simpl; [reflexivity|].
  now rewrite length_insert_sorted, IH.
Qed.

Lemma insert_sorted_HdRel (y x : Q) (xs : list Q) :
  y <= x -> HdRel Qle y xs -> HdRel Qle y (insert_sorted x xs).
Proof.
  intros Hyx Hy.
  destruct xs as [|z t]; simpl; [now constructor|].
  destruct (Qlt_le_dec x z); constructor; [exact Hyx|].
  now inversion Hy.
Qed.

Lemma insert_sorted_Sorted (x : Q) (xs : list Q) :
  Sorted Qle xs -> Sorted Qle (insert_sorted x xs).
Proof.
  intros Hs.
  induction Hs as [|y t Ht IH Hy]; simpl; [repeat constructor|].
  destruct (Qlt_le_dec x y) as [Hlt|Hle].
  - constructor; [now constructor|]. constructor. lra.
  - constructor; [exact IH|]. now apply insert_sorted_HdRel.
Qed.

Lemma sorted_Sorted (xs : list Q) : Sorted Qle (sorted xs).
Proof.
  unfold sorted.
  induction (rev xs) as [|y t IH]; simpl; [constructor|].
  now apply insert_sorted_Sorted.
Qed.

Lemma getitem_first_two (xs : list Q) (c0 c1 : Q) :
  Sorted Qle xs -> getitem xs 0 = Ok c0 -> getitem xs 1 = Ok c1 -> c0 <= c1.
Proof.
  intros Hs H0 H1.
  destruct xs as [|a [|b t]]; try discriminate.
  injection H0 as <-. injection H1 as <-.
  apply Sorted_inv in Hs. destruct Hs as [_ Hd]. now inversion Hd.
Qed.

Lemma net_premium_nil : net_premium_points [] == 0.
Proof.
  reflexivity.
Qed.

(** What [calculate_us_margin] can return: 0, or a strike difference that
    is not negative, times the multiplier. *)
Lemma margin_shape (name : string) (legs : list leg) (m v : Q) :
  calculate_us_margin name legs m = Ok v ->
  v = 0 \/ exists hi lo, v = (hi - lo) * m /\ lo <= hi.
Proof.
  unfold calculate_us_margin.
  destruct (Qle_bool (net_premium_points legs) 0); [intros [= <-]; now left|].
  destruct (name_in name _); [|intros [= <-]; now left].
  destruct legs as [|l t]; [discriminate|].
  cbn [map py_max py_min bind].
  pose proof (py_min_le_first (strike l) (map strike t)) as Hlo.
  pose proof (py_max_ge_first (strike l) (map strike t)) as Hhi.
  destruct (String.eqb name "Iron Condor").
  - set (k_calls := sorted _).
    destruct (getitem k_calls 1) as [c1|] eqn:E1; [|discriminate].
    destruct (getitem k_calls 0) as [c0|] eqn:E0; [|discriminate].
    cbn [bind]. intros [= <-]. right. exists c1, c0. split; [reflexivity|].
    apply (getitem_first_two k_calls); [apply sorted_Sorted|exact E0|exact E1].
  - intros [= <-]. right. eexists _, _. split; [reflexivity|]. lra.
Qed.

End MarginEdges.

(** X5. For every strategy name other than "Iron Condor", every leg list
    and every multiplier, [calculate_us_margin] returns a value: the
    premium test keeps [max] and [min] away from an empty strike list. *)
Theorem margin_returns_outside_iron_condor :
  forall (name : string) (legs : list leg) (m : Q),
    name <> "Iron Condor"%string ->
    exists v, calculate_us_margin name legs m = Ok v.
Proof.
  intros name legs m Hname. unfold calculate_us_margin.
  destruct (Qle_bool (net_premium_points legs) 0) eqn:G; [eauto|].
  destruct (name_in name _); [|eauto].
  destruct legs as [|l t]; [discriminate G|].
  cbn [map py_max py_min bind].
  apply String.eqb_neq in Hname. rewrite Hname. eauto.
Qed.

Lemma margin_returns_outside_iron_condor_witness :
  exists v, calculate_us_margin "Bull Put Spread" [] 100 = Ok v.
Proof.
  apply margin_returns_outside_iron_condor. discriminate.
Defined.

(** X6. Under the name "Iron Condor", with a strictly positive net
    premium, [calculate_us_margin] raises [IndexError] when fewer than two
    legs have a tag containing "call", and returns a value when at least
    two do. *)
Theorem iron_condor_needs_two_calls :
  forall (legs : list leg) (m : Q),
    0 < net_premium_points legs ->
    ((List.length (filter (fun l => str_in "call" (type l)) legs) < 2)%nat ->
       calculate_us_margin "Iron Condor" legs m = Raise IndexError)
    /\ ((2 <= List.length (filter (fun l => str_in "call" (type l)) legs))%nat ->
          exists v, calculate_us_margin "Iron Condor" legs m = Ok v).
Proof.
  intros legs m Hnet. unfold calculate_us_margin.
  rewrite (margin_gate_open legs Hnet).
  change (name_in "Iron Condor" ["Iron Condor"; "Bull Put Spread"; "Bear Call Spread"]%string)
    with true.
  change (String.eqb "Iron Condor" "Iron Condor") with true. cbv iota.
  destruct legs as [|l t]; [discriminate Hnet|].
  cbn [py_max py_min bind map].
  set (k_calls := sorted _).
  assert (Hlen : List.length k_calls
                 = List.length (filter (fun l => str_in "call" (type l)) (l :: t))).
  { unfold k_calls. now rewrite length_sorted, length_map. }
  rewrite <- Hlen. split; intros H.
  - unfold getitem at 1.
    destruct (nth_error k_calls 1) eqn:E; [|reflexivity].
    assert (Hn : nth_error k_calls 1 <> None) by congruence.
    apply nth_error_Some in Hn. lia.
  - rewrite (getitem_nth k_calls 1), (getitem_nth k_calls 0) by lia.
    cbn [bind]. eauto.
Qed.

Lemma iron_condor_needs_two_calls_witness :
  calculate_us_margin "Iron Condor"
    [mkleg "short_put" 100 3; mkleg "long_put" 90 (6 # 5)] 100 = Raise IndexError
  /\ (exists v,
        calculate_us_margin "Iron Condor"
          [mkleg "short_call" 105 3; mkleg "long_call" 110 1;
           mkleg "long_call" 120 1] 100 = Ok v).
Proof.
  split.
  - apply (proj1 (iron_condor_needs_two_calls
                    [mkleg "short_put" 100 3; mkleg "long_put" 90 (6 # 5)] 100 eq_refl)).
    simpl. lia.
  - apply (proj2 (iron_condor_needs_two_calls
                    [mkleg "short_call" 105 3; mkleg "long_call" 110 1;
                     mkleg "long_call" 120 1] 100 eq_refl)).
    simpl. lia.
Defined.

(** X7. With a multiplier that is not negative, a margin returned by
    [calculate_us_margin] is never negative, whatever the name, the tags
    and the order of the strikes. *)
Theorem margin_nonnegative :
  forall (name : string) (legs : list leg) (m v : Q),
    0 <= m ->
    calculate_us_margin name legs m = Ok v ->
    0 <= v.
Proof.
  intros name legs m v Hm E.
  destruct (margin_shape name legs m v E) as [-> | [hi [lo [-> Hle]]]]; [lra|nra].
Qed.

Lemma margin_nonnegative_witness :
  0 <= (100 - 90) * 100.
Proof.
  apply (margin_nonnegative "Bull Put Spread"
           [mkleg "long_put" 90 1; mkleg "short_put" 100 3] 100).
  - discriminate.
  - reflexivity.
Defined.

(** ** Break-even points: short price arrays and the interpolated root *)

Section BreakEvenEdges.

Variables prices pnl : list Q.

Let nonzero_step (i : nat) : bool :=
  negb (Qeq_bool (nth (i + 1) pnl 0 - nth i pnl 0) 0).

Lemma getitem_out_of_range (xs : list Q) (i : nat) :
  (List.length xs <= i)%nat -> getitem xs i = Raise IndexError.
Proof.
  intros H. unfold getitem.
  now rewrite (proj2 (nth_error_None xs i) H).
Qed.

Lemma break_evens_over_ok (indices : list nat) :
  Forall (fun i => (i + 1 < List.length pnl)%nat) indices ->
  Forall (fun i => nonzero_step i = true -> (i + 1 < List.length prices)%nat) indices ->
  break_evens_over prices pnl indices
  = Ok (map (Spec.interpolate prices pnl) (filter nonzero_step indices)).
Proof.
  intros Hall. induction Hall as [|i rest Hi _ IH]; intros Hin; [reflexivity|].
  apply Forall_cons_iff in Hin. destruct Hin as [Hpi Hrest].
  cbn [break_evens_over filter].
  rewrite (getitem_nth pnl (i + 1)), (getitem_nth pnl i) by lia.
  cbn [bind]. fold (nonzero_step i).
  destruct (nonzero_step i).
  - specialize (Hpi eq_refl).
    rewrite (getitem_nth prices i), (getitem_nth prices (i + 1)) by lia.
    cbn [bind]. now rewrite (IH Hrest).
  - exact (IH Hrest).
Qed.

Lemma break_evens_over_raise (indices : list nat) :
  Forall (fun i => (i + 1 < List.length pnl)%nat) indices ->
  Exists (fun i => nonzero_step i = true /\ (List.length prices <= i + 1)%nat) indices ->
  break_evens_over prices pnl indices = Raise IndexError.
Proof.
  intros Hall. induction Hall as [|i rest Hi _ IH]; intros Hex.
  { inversion Hex. }
  cbn [break_evens_over].
  rewrite (getitem_nth pnl (i + 1)), (getitem_nth pnl i) by lia.
  cbn [bind]. fold (nonzero_step i).
  destruct (nonzero_step i) eqn:En.
  - destruct (le_lt_dec (List.length prices) (i + 1)) as [Hout|Hin].
    + destruct (le_lt_dec (List.length prices) i) as [Hout0|Hin0].
      * now rewrite (getitem_out_of_range prices i Hout0).
      * rewrite (getitem_nth prices i Hin0). cbn [bind].
        now rewrite (getitem_out_of_range prices (i + 1) Hout).
    + rewrite (getitem_nth prices i), (getitem_nth prices (i + 1)) by lia.
      cbn [bind]. rewrite IH; [reflexivity|].
      apply Exists_cons in Hex. destruct Hex as [[_ Hbad]|Hex]; [lia|exact Hex].
  - apply IH.
    apply Exists_cons in Hex. destruct Hex as [[Hbad _]|Hex]; [congruence|exact Hex].
Qed.

Lemma crossing_indices_in_range :
  Forall (fun i => (i + 1 < List.length pnl)%nat)
         (np_where (np_diff (np_sign pnl))).
Proof.
  rewrite np_where_sign_diff. apply Forall_forall. intros i Hi.
  apply filter_In in Hi. destruct Hi as [Hi _]. apply in_seq in Hi. lia.
Qed.

Lemma crossing_index_iff (i : nat) :
  In i (np_where (np_diff (np_sign pnl))) /\ nonzero_step i = true
  <-> (i + 1 < List.length pnl)%nat /\ Spec.crossing pnl i = true.
Proof.
  rewrite np_where_sign_diff, filter_In, in_seq.
  unfold Spec.crossing, nonzero_step. rewrite andb_true_iff.
  split; intros H; repeat split; try tauto; lia.
Qed.

End BreakEvenEdges.

(** X8. [find_break_even_points] needs a right-hand price only where the
    curve crosses: it returns the interpolated crossings when every
    crossing pair [i], [i+1] of [PnL] has [i+1] inside [S], and raises
    [IndexError] when some crossing pair has not. *)
Theorem find_break_even_points_short_prices :
  forall (prices pnl : list Q),
    ((forall i, (i + 1 < List.length pnl)%nat -> Spec.crossing pnl i = true ->
                (i + 1 < List.length prices)%nat) ->
       find_break_even_points prices pnl = Ok (Spec.findCrossings prices pnl))
    /\ ((exists i, (i + 1 < List.length pnl)%nat /\ Spec.crossing pnl i = true
                   /\ (List.length prices <= i + 1)%nat) ->
          find_break_even_points prices pnl = Raise IndexError).
Proof.
  intros prices pnl. unfold find_break_even_points. split.
  - intros Hin.
    rewrite break_evens_over_ok.
    + unfold Spec.findCrossings.
      now rewrite np_where_sign_diff, filter_filter_andb.
    + apply crossing_indices_in_range.
    + apply Forall_forall. intros i Hi Hn.
      destruct (proj1 (crossing_index_iff pnl i) (conj Hi Hn)) as [Hr Hc].
      now apply Hin.
  - intros [i [Hr [Hc Hout]]].
    apply break_evens_over_raise; [apply crossing_indices_in_range|].
    apply Exists_exists. exists i.
    destruct (proj2 (crossing_index_iff pnl i) (conj Hr Hc)) as [Hi Hn].
    repeat split; assumption.
Qed.

Lemma find_break_even_points_short_prices_witness :
  find_break_even_points [100; 102] [-170; 30; 30; 30]
    = Ok (Spec.findCrossings [100; 102] [-170; 30; 30; 30])
  /\ find_break_even_points [100] [-170; 30] = Raise IndexError.
Proof.
  split.
  - apply (proj1 (find_break_even_points_short_prices [100; 102] [-170; 30; 30; 30])).
    intros [|[|[|i]]] Hi Hc.
    + simpl. lia.
    + vm_compute in Hc. discriminate Hc.
    + vm_compute in Hc. discriminate Hc.
    + simpl in Hi. lia.
  - apply (proj2 (find_break_even_points_short_prices [100] [-170; 30])).
    exists 0%nat. split; [simpl; lia|]. split; [reflexivity|simpl; lia].
Defined.

(** X9. On a strictly increasing price array of the length of the curve,
    every returned break-even comes from a crossing pair [i], [i+1], lies
    between [S[i]] and [S[i+1]], and is the zero of the straight line
    through [(S[i], PnL[i])] and [(S[i+1], PnL[i+1])]. *)
Theorem break_even_is_chord_root :
  forall (prices pnl r : list Q),
    List.length prices = List.length pnl ->
    Spec.strictlyIncreasing prices ->
    find_break_even_points prices pnl = Ok r ->
    Forall (fun x =>
              exists i, (i + 1 < List.length pnl)%nat
                        /\ Spec.crossing pnl i = true
                        /\ x = Spec.interpolate prices pnl i
                        /\ nth i prices 0 <= x /\ x <= nth (i + 1) prices 0
                        /\ nth i pnl 0
                           + (x - nth i prices 0)
                             * ((nth (i + 1) pnl 0 - nth i pnl 0)
                                / (nth (i + 1) prices 0 - nth i prices 0)) == 0) r.
Proof.
  intros prices pnl r Hlen Hinc E.
  rewrite (find_break_even_points_eq prices pnl Hlen) in E. injection E as <-.
  unfold Spec.findCrossings.
  apply Forall_forall. intros x Hx.
  apply in_map_iff in Hx. destruct Hx as [i [<- Hi]].
  apply filter_In in Hi. destruct Hi as [Hi Hc]. apply in_seq in Hi.
  exists i. split; [lia|]. split; [exact Hc|]. split; [reflexivity|].
  unfold Spec.crossing in Hc. apply andb_prop in Hc. destruct Hc as [Hs Hd].
  apply negb_true_iff in Hs.
  assert (Hd' : ~ nth (i + 1) pnl 0 - nth i pnl 0 == 0).
  { apply negb_true_iff in Hd. intros H. apply Qeq_bool_iff in H. congruence. }
  assert (Hp : nth i prices 0 < nth (i + 1) prices 0).
  { apply strictly_increasing_nth; [exact Hinc|lia|lia]. }
  unfold Spec.interpolate.
  destruct (crossing_between _ _ _ _ Hs Hp) as [Hlo Hhi].
  split; [exact Hlo|]. split; [exact Hhi|].
  field. split; [lra|exact Hd'].
Qed.

Lemma break_even_is_chord_root_witness :
  Forall (fun x =>
            exists i, (i + 1 < 3)%nat
                      /\ Spec.crossing [-170; 30; 30] i = true
                      /\ x = Spec.interpolate [100; 102; 104] [-170; 30; 30] i
                      /\ nth i [100; 102; 104] 0 <= x
                      /\ x <= nth (i + 1) [100; 102; 104] 0
                      /\ nth i [-170; 30; 30] 0
                         + (x - nth i [100; 102; 104] 0)
                           * ((nth (i + 1) [-170; 30; 30] 0 - nth i [-170; 30; 30] 0)
                              / (nth (i + 1) [100; 102; 104] 0
                                 - nth i [100; 102; 104] 0)) == 0)
         (Spec.findCrossings [100; 102; 104] [-170; 30; 30]).
Proof.
  apply (break_even_is_chord_root [100; 102; 104] [-170; 30; 30]).
  - reflexivity.
  - repeat constructor.
  - reflexivity.
Defined.

(** ** Largest and smallest element *)

Section Extremes.

Lemma fold_max_spec (t : list Q) (x : Q) :
  let r := fold_left (fun cur y => if Qlt_le_dec cur y then y else cur) t x in
  In r (x :: t) /\ Forall (fun k => k <= r) (x :: t).
Proof.
  revert x.
  induction t as [|y t IH]; intros x; cbn zeta; simpl fold_left.
  - split; [now left|]. constructor; [lra|constructor].
  - destruct (Qlt_le_dec x y) as [Hlt|Hle].
    + destruct (IH y) as [Hin Hall]. split; [now right|].
      inversion Hall as [|? ? Hy Ht]; subst.
      constructor; [lra|]. constructor; assumption.
    + destruct (IH x) as [Hin Hall]. split.
      * destruct Hin as [Hin|Hin]; [now left|right; now right].
      * inversion Hall as [|? ? Hx Ht]; subst.
        constructor; [exact Hx|]. constructor; [lra|exact Ht].
Qed.

Lemma fold_min_spec (t : list Q) (x : Q) :
  let r := fold_left (fun cur y => if Qlt_le_dec y cur then y else cur) t x in
  In r (x :: t) /\ Forall (fun k => r <= k) (x :: t).
Proof.
  revert x.
  induction t as [|y t IH]; intros x; cbn zeta; simpl fold_left.
  - split; [now left|]. constructor; [lra|constructor].
  - destruct (Qlt_le_dec y x) as [Hlt|Hle].
    + destruct (IH y) as [Hin Hall]. split; [now right|].
      inversion Hall as [|? ? Hy Ht]; subst.
      constructor; [lra|]. constructor; assumption.
    + destruct (IH x) as [Hin Hall]. split.
      * destruct Hin as [Hin|Hin]; [now left|right; now right].
      * inversion Hall as [|? ? Hx Ht]; subst.
        constructor; [exact Hx|]. constructor; [lra|exact Ht].
Qed.

Lemma py_max_spec (xs : list Q) (v : Q) :
  py_max xs = Ok v -> In v xs /\ Forall (fun k => k <= v) xs.
Proof.
  destruct xs as [|x t]; [discriminate|].
  intros [= <-]. apply fold_max_spec.
Qed.

Lemma py_min_spec (xs : list Q) (v : Q) :
  py_min xs = Ok v -> In v xs /\ Forall (fun k => v <= k) xs.
Proof.
  destruct xs as [|x t]; [discriminate|].
  intros [= <-]. apply fold_min_spec.
Qed.

End Extremes.

(** ** The price grid around the strikes *)



(** ** The main panel as a whole *)

Section MainPanel.

Variables (name : string) (legs : list leg) (ks : list Q) (m : Q).

(** The steps behind a finished analysis. *)
Lemma main_panel_inv (a : analysis) :
  main_panel name legs ks m = Ok a ->
  exists S max_profit max_loss break_evens margin,
    S_prices ks = Ok S
    /\ py_max (pnl_currency S legs m) = Ok max_profit
    /\ py_min (pnl_currency S legs m) = Ok max_loss
    /\ find_break_even_points S (pnl_currency S legs m) = Ok break_evens
    /\ calculate_us_margin name legs m = Ok margin
    /\ a = mkanalysis S (pnl_currency S legs m) max_profit max_loss break_evens
             (net_cost_credit legs m) margin
             (cost_basis (net_cost_credit legs m) margin)
             (roi_per_point (pnl_currency S legs m)
                            (cost_basis (net_cost_credit legs m) margin))
             (total_roi max_profit (net_cost_credit legs m)
                        (cost_basis (net_cost_credit legs m) margin)).
Proof.
  unfold main_panel. intros E.
  destruct (S_prices ks) as [S|] eqn:ES; [|discriminate E]. cbn [bind] in E.
  destruct (py_max (pnl_currency S legs m)) as [mp|] eqn:Emp; [|discriminate E].
  destruct (py_min (pnl_currency S legs m)) as [ml|] eqn:Eml; [|discriminate E].
  cbn [bind] in E.
  destruct (find_break_even_points S (pnl_currency S legs m)) as [be|] eqn:Ebe;
    [|discriminate E].
  destruct (calculate_us_margin name legs m) as [mg|] eqn:Emg; [|discriminate E].
  cbn [bind] in E. injection E as <-.
  exists S, mp, ml, be, mg. repeat split; (reflexivity || assumption).
Qed.

Lemma length_pnl_currency (S : list Q) :
  List.length (pnl_currency S legs m) = List.length S.
Proof.
  rewrite pnl_currency_map. apply length_map.
Qed.



End MainPanel.



(** ** Return on capital in the analysis *)

(** X12. For a net debit the capital basis is the premium paid whatever the
    margin, so the total ROI is a finite number and no element of the ROI
    series is undefined: the infinity branch of the debit case is never
    taken. *)
Theorem debit_roi_is_defined :
  forall (max_profit net margin : Q) (pnl : list Q),
    net < 0 ->
    0 < cost_basis net margin
    /\ cost_basis net margin == - net
    /\ total_roi max_profit net (cost_basis net margin)
       = Finite ((max_profit / Qabs net) * 100)
    /\ roi_per_point pnl (cost_basis net margin)
       = map (fun v => Finite ((v / Qabs net) * 100)) pnl.
Proof.
  intros mp net margin pnl Hneg.
  assert (Ecb : cost_basis net margin = Qabs net).
  { unfold cost_basis. destruct (Qlt_le_dec net 0); [reflexivity|lra]. }
  assert (Eabs : Qabs net == - net) by (apply Qabs_neg; lra).
  rewrite Ecb.
  assert (Hpos : 0 < Qabs net) by lra.
  split; [exact Hpos|]. split; [exact Eabs|]. split.
  - unfold total_roi.
    destruct (Qlt_le_dec net 0); [|lra].
    destruct (Qlt_le_dec 0 (Qabs net)); [reflexivity|lra].
  - unfold roi_per_point.
    destruct (Qlt_le_dec 0 (Qabs net)); [reflexivity|lra].
Qed.

Lemma debit_roi_is_defined_witness :
  total_roi 830 (-170) (cost_basis (-170) 0) = Finite ((830 / Qabs (-170)) * 100).
Proof.
  apply (debit_roi_is_defined 830 (-170) 0 []). reflexivity.
Defined.

Lemma roi_per_point_zero_basis (pnl : list Q) :
  roi_per_point pnl 0 = repeat NaN (List.length pnl).
Proof.
  unfold roi_per_point, np_full_like_nan.
  destruct (Qlt_le_dec 0 0) as [H|_]; [lra|].
  induction pnl as [|v pnl IH]; simpl; [reflexivity|now rewrite IH].
Qed.

(** X13. An analysis under a name outside the three credit shapes whose
    legs bring a net credit, or no premium at all, has margin 0 and capital
    basis 0: its total ROI is infinity and every element of its ROI series
    is [nan]. *)
Theorem credit_without_margin_has_no_roi :
  forall (name : string) (legs : list leg) (ks : list Q) (m : Q) (a : analysis),
    main_panel name legs ks m = Ok a ->
    name <> "Iron Condor"%string ->
    name <> "Bull Put Spread"%string ->
    name <> "Bear Call Spread"%string ->
    0 <= a_net_cost_credit a ->
    a_margin a = 0 /\ a_cost_basis a = 0 /\ a_total_roi a = Inf
    /\ a_roi_per_point a = repeat NaN (List.length (a_S a)).
Proof.
  intros name legs ks m a E H1 H2 H3 Hcredit.
  destruct (main_panel_inv name legs ks m a E)
    as [S [mp [ml [be [mg [ES [Emp [Eml [Ebe [Emg ->]]]]]]]]]].
  cbn [a_S a_net_cost_credit a_margin a_cost_basis a_total_roi a_roi_per_point] in *.
  assert (Hmg : mg = 0).
  { rewrite margin_other_names in Emg; [now injection Emg|].
    unfold name_in; simpl.
    apply String.eqb_neq in H1, H2, H3. now rewrite H1, H2, H3. }
  subst mg.
  assert (Ecb : cost_basis (net_cost_credit legs m) 0 = 0).
  { unfold cost_basis. destruct (Qlt_le_dec (net_cost_credit legs m) 0); [lra|reflexivity]. }
  rewrite Ecb. split; [reflexivity|]. split; [reflexivity|]. split.
  - unfold total_roi.
    destruct (Qlt_le_dec (net_cost_credit legs m) 0); [lra|reflexivity].
  - rewrite <- (length_pnl_currency legs m S).
    apply roi_per_point_zero_basis.
Qed.

Lemma credit_without_margin_has_no_roi_witness :
  exists a,
    main_panel "Butterfly Spread"
      [mkleg "long_call" 100 1; mkleg "short_call" (401 # 4) 2;
       mkleg "short_call" (401 # 4) 2; mkleg "long_call" (201 # 2) 1]
      [100; 401 # 4; 201 # 2] 100 = Ok a
    /\ a_total_roi a = Inf.
Proof.
  destruct (main_panel "Butterfly Spread"
              [mkleg "long_call" 100 1; mkleg "short_call" (401 # 4) 2;
               mkleg "short_call" (401 # 4) 2; mkleg "long_call" (201 # 2) 1]
              [100; 401 # 4; 201 # 2] 100)
    as [a|] eqn:E; [|vm_compute in E; discriminate E].
  exists a. split; [reflexivity|].
  assert (Hc : 0 <= a_net_cost_credit a).
  { pose proof E as E'. vm_compute in E'. injection E' as <-. vm_compute. discriminate. }
  apply (credit_without_margin_has_no_roi _ _ _ _ a E).
  - discriminate.
  - discriminate.
  - discriminate.
  - exact Hc.
Defined.


(** X14. In an analysis with a net debit, at every grid price where the
    intrinsic payoff of the legs is zero the point ROI is exactly -100: the
    whole premium paid is lost. *)
Theorem debit_roi_at_worthless_expiry :
  forall (name : string) (legs : list leg) (ks : list Q) (m : Q) (a : analysis)
         (i : nat),
    main_panel name legs ks m = Ok a ->
    a_net_cost_credit a < 0 ->
    (i < List.length (a_S a))%nat ->
    payoff_point (nth i (a_S a) 0) legs == 0 ->
    exists r, nth i (a_roi_per_point a) NaN = Finite r /\ r == - (100).
Proof.
  intros name legs ks m a i E Hdebit Hi Hpay.
  destruct (main_panel_inv name legs ks m a E)
    as [S [mp [ml [be [mg [ES [Emp [Eml [Ebe [Emg ->]]]]]]]]]].
  cbn [a_S a_net_cost_credit a_roi_per_point] in *.
  set (ncc := net_cost_credit legs m) in *.
  assert (Ecb : cost_basis ncc mg = Qabs ncc).
  { unfold cost_basis. destruct (Qlt_le_dec ncc 0); [reflexivity|lra]. }
  assert (Eabs : Qabs ncc == - ncc) by (apply Qabs_neg; lra).
  rewrite Ecb. unfold roi_per_point.
  destruct (Qlt_le_dec 0 (Qabs ncc)) as [_|Hle]; [|lra].
  rewrite pnl_currency_map, map_map.
  set (f := fun s => Finite ((payoff_point s legs + net_premium_points legs) * m
                             / Qabs ncc * 100)).
  rewrite (nth_indep _ NaN (f 0)) by (now rewrite length_map).
  rewrite (map_nth f). unfold f. eexists. split; [reflexivity|].
  rewrite Hpay, Eabs.
  assert (E1 : (0 + net_premium_points legs) * m == ncc)
    by (unfold ncc, net_cost_credit; ring).
  rewrite E1. clearbody ncc. field. lra.
Qed.

Lemma debit_roi_at_worthless_expiry_witness :
  exists a r,
    main_panel "Bull Call Spread"
      [mkleg "long_call" 100 (5 # 2); mkleg "short_call" 101 (4 # 5)] [100; 101] 100 = Ok a
    /\ nth 0 (a_roi_per_point a) NaN = Finite r /\ r == - (100).
Proof.
  destruct (main_panel "Bull Call Spread"
              [mkleg "long_call" 100 (5 # 2); mkleg "short_call" 101 (4 # 5)]
              [100; 101] 100)
    as [a|] eqn:E; [|vm_compute in E; discriminate E].
  assert (Ha : a_net_cost_credit a < 0
               /\ (0 < List.length (a_S a))%nat
               /\ payoff_point (nth 0 (a_S a) 0)
                    [mkleg "long_call" 100 (5 # 2); mkleg "short_call" 101 (4 # 5)] == 0).
  { pose proof E as E'. vm_compute in E'. injection E' as <-.
    vm_compute. repeat split. lia. }
  destruct Ha as [Hd [Hl Hp]].
  destruct (debit_roi_at_worthless_expiry _ _ _ _ a 0%nat E Hd Hl Hp) as [r Hr].
  exists a, r. split; [reflexivity|exact Hr].
Defined.

(** ** From the sidebar to the page *)

Section Pages.

Variable m : Q.

Lemma py_ge_iff (a b : Q) : py_ge a b = true <-> b <= a.
Proof.
  unfold py_ge. apply Qle_bool_iff.
Qed.

Lemma py_lt_iff (a b : Q) : py_lt a b = true <-> a < b.
Proof.
  unfold py_lt. destruct (Qle_bool b a) eqn:E; simpl.
  - apply Qle_bool_iff in E. split; [discriminate|lra].
  - split; [intros _|reflexivity].
    destruct (Qlt_le_dec a b) as [H|H]; [exact H|].
    apply Qle_bool_iff in H. congruence.
Qed.

Lemma error_message_iff (s : sidebar) :
  error_message (read_sidebar s) = ""%string <-> strikes_in_order s.
Proof.
  destruct s; cbn [read_sidebar error_message strikes_in_order].
  1-4: destruct (py_ge k_low k_high) eqn:E;
    [apply py_ge_iff in E; split; [discriminate|lra]
    |split; [intros _|reflexivity];
     destruct (Qlt_le_dec k_low k_high) as [H|H]; [exact H|];
     apply py_ge_iff in H; congruence].
  - destruct (py_lt k_low k_mid) eqn:E1, (py_lt k_mid k_high) eqn:E2; cbn [andb negb];
      rewrite <- !py_lt_iff, ?E1, ?E2; split; try discriminate; try tauto;
      intros [? ?]; discriminate.
  - destruct (py_lt k_lp k_sp) eqn:E1, (py_lt k_sp k_sc) eqn:E2, (py_lt k_sc k_lc) eqn:E3;
      cbn [andb negb];
      rewrite <- !py_lt_iff, ?E1, ?E2, ?E3; split; try discriminate; try tauto;
      intros [? [? ?]]; discriminate.
Qed.




Lemma sidebar_details_nonempty (s : sidebar) :
  exists l t, strategy_details (read_sidebar s) = l :: t.
Proof.
  destruct s; cbn [read_sidebar strategy_details]; eauto.
Qed.

(** What the analysis page shows. *)
Lemma app_analysis (s : sidebar) (a : analysis) :
  app m s = Ok (AnalysisPage a) ->
  strikes_in_order s
  /\ main_panel (strategy_name s) (strategy_details (read_sidebar s))
                (strikes (read_sidebar s)) m = Ok a.
Proof.
  unfold app. intros E.
  destruct (String.eqb (error_message (read_sidebar s)) "") eqn:Em; cbn [negb] in E;
    [|discriminate E].
  apply String.eqb_eq, error_message_iff in Em. split; [exact Em|].
  destruct (sidebar_details_nonempty s) as [l [t El]]. rewrite El in *.
  destruct (main_panel _ _ _ _) as [a'|]; [|discriminate E].
  cbn [bind] in E. now injection E as <-.
Qed.

End Pages.



(** ** The six strategy shapes *)

Section Shapes.

Variable m : Q.

Lemma pnl_currency_Forall (P : Q -> Prop) (S : list Q) (legs : list leg) :
  (forall s, P ((payoff_point s legs + net_premium_points legs) * m)) ->
  Forall P (pnl_currency S legs m).
Proof.
  intros H. rewrite pnl_currency_map.
  apply Forall_forall. intros v Hv.
  apply in_map_iff in Hv. destruct Hv as [s [<- _]]. apply H.
Qed.

Lemma curve_within_of_points (name : string) (legs : list leg) (ks : list Q)
    (a : analysis) (lo hi : Q) :
  main_panel name legs ks m = Ok a ->
  (forall s, lo <= (payoff_point s legs + net_premium_points legs) * m
             /\ (payoff_point s legs + net_premium_points legs) * m <= hi) ->
  curve_within a lo hi.
Proof.
  intros E Hpt.
  destruct (main_panel_inv name legs ks m a E)
    as [S [mp [ml [be [mg [ES [Emp [Eml [Ebe [Emg ->]]]]]]]]]].
  unfold curve_within. cbn [a_pnl_currency a_max_loss a_max_profit].
  pose proof (pnl_currency_Forall (fun v => lo <= v /\ v <= hi) S legs Hpt) as Hall.
  split; [exact Hall|].
  rewrite Forall_forall in Hall.
  destruct (py_max_spec _ _ Emp) as [Hmp _].
  destruct (py_min_spec _ _ Eml) as [Hml _].
  split; [apply (Hall ml Hml)|apply (Hall mp Hmp)].
Qed.

Lemma analysis_margin (name : string) (legs : list leg) (ks : list Q) (a : analysis) :
  main_panel name legs ks m = Ok a ->
  calculate_us_margin name legs m = Ok (a_margin a)
  /\ a_net_cost_credit a = net_premium_points legs * m
  /\ a_cost_basis a = cost_basis (a_net_cost_credit a) (a_margin a)
  /\ a_total_roi a = total_roi (a_max_profit a) (a_net_cost_credit a) (a_cost_basis a).
Proof.
  intros E.
  destruct (main_panel_inv name legs ks m a E)
    as [S [mp [ml [be [mg [ES [Emp [Eml [Ebe [Emg ->]]]]]]]]]].
  repeat split. exact Emg.
Qed.

(** The first grid point lies below every strike, and the smallest value of
    the curve is at most the value there. *)
Lemma max_loss_below_first_point (name : string) (legs : list leg) (ks : list Q)
    (a : analysis) :
  main_panel name legs ks m = Ok a ->
  exists x0, Forall (fun k => x0 < k) ks
             /\ a_max_loss a <= (payoff_point x0 legs + net_premium_points legs) * m.
Proof.
  intros E.
  destruct (main_panel_inv name legs ks m a E)
    as [S [mp [ml [be [mg [ES [Emp [Eml [Ebe [Emg ->]]]]]]]]]].
  cbn [a_max_loss].
  unfold S_prices in ES.
  destruct (py_min ks) as [mn|] eqn:Emin; [|discriminate ES].
  destruct (py_max ks) as [mx|] eqn:Emax; [|discriminate ES].
  cbn [bind] in ES.
  destruct (py_min_spec _ _ Emin) as [Hin Hmin].
  destruct (py_max_spec _ _ Emax) as [_ Hmax].
  rewrite Forall_forall in Hmax. specialize (Hmax mn Hin).
  pose proof (buffer_pos mn mx) as Hb.
  destruct (np_arange_well_formed (mn - buffer mn mx) (mx + buffer mn mx) (1 # 2))
    as [g [Eg [[x0 [t [Ex Hx0]]] _]]]; [reflexivity|lra|].
  rewrite ES in Eg. injection Eg as <-.
  exists x0. split.
  - rewrite Forall_forall in *. intros k Hk. specialize (Hmin k Hk). lra.
  - destruct (py_min_spec _ _ Eml) as [_ Hml].
    rewrite Forall_forall in Hml. apply Hml.
    rewrite pnl_currency_map, Ex. now left.
Qed.

End Shapes.

(** Splits on which argument each [Qmax] and [Qmin] of the goal returns. *)
Ltac minmax_cases :=
  repeat match goal with
         | |- context [Qmax ?x ?y] =>
             let v := fresh "v" in
             let H := fresh "H" in
             pose proof (Q.max_spec x y) as H;
             generalize dependent (Qmax x y); intros v H;
             destruct H as [[? ?]|[? ?]]
         | |- context [Qmin ?x ?y] =>
             let v := fresh "v" in
             let H := fresh "H" in
             pose proof (Q.min_spec x y) as H;
             generalize dependent (Qmin x y); intros v H;
             destruct H as [[? ?]|[? ?]]
         end.

(** X16. Debit verticals.  With strikes in order and a multiplier that is
    not negative, the analysis of a Bull Call Spread and of a Bear Put
    Spread has margin 0, and its curve, largest and smallest value
    included, stays between the net premium and the net premium plus the
    strike width, both times the multiplier. *)
Theorem debit_vertical_bounds :
  forall (m : Q),
    0 <= m ->
    (forall k_low p_low k_high p_high a,
       app m (BullCallSpread k_low p_low k_high p_high) = Ok (AnalysisPage a) ->
       a_margin a = 0
       /\ curve_within a ((p_high - p_low) * m)
                         ((k_high - k_low + (p_high - p_low)) * m))
    /\ (forall k_high p_high k_low p_low a,
          app m (BearPutSpread k_high p_high k_low p_low) = Ok (AnalysisPage a) ->
          a_margin a = 0
          /\ curve_within a ((p_low - p_high) * m)
                            ((k_high - k_low + (p_low - p_high)) * m)).
Proof.
  intros m Hm. split.
  - intros kl pl kh ph a E.
    destruct (app_analysis m _ a E) as [Hord Ea].
    cbn [strikes_in_order strategy_name read_sidebar strategy_details strikes] in *.
    destruct (analysis_margin m _ _ _ a Ea) as [Emg _].
    rewrite margin_other_names in Emg by reflexivity.
    split; [now injection Emg|].
    apply (curve_within_of_points m _ _ _ a _ _ Ea). intros s.
    change ((payoff_point s [mkleg "long_call" kl pl; mkleg "short_call" kh ph]
             + net_premium_points [mkleg "long_call" kl pl; mkleg "short_call" kh ph]) * m)
      with ((0 + 1 * Qmax 0 (s - kl) + -1 * Qmax 0 (s - kh) + (0 + - pl + ph)) * m).
    minmax_cases; split; nra.
  - intros kh ph kl pl a E.
    destruct (app_analysis m _ a E) as [Hord Ea].
    cbn [strikes_in_order strategy_name read_sidebar strategy_details strikes] in *.
    destruct (analysis_margin m _ _ _ a Ea) as [Emg _].
    rewrite margin_other_names in Emg by reflexivity.
    split; [now injection Emg|].
    apply (curve_within_of_points m _ _ _ a _ _ Ea). intros s.
    change ((payoff_point s [mkleg "long_put" kh ph; mkleg "short_put" kl pl]
             + net_premium_points [mkleg "long_put" kh ph; mkleg "short_put" kl pl]) * m)
      with ((0 + 1 * Qmax 0 (kh - s) + -1 * Qmax 0 (kl - s) + (0 + - ph + pl)) * m).
    minmax_cases; split; nra.
Qed.

Lemma debit_vertical_bounds_witness :
  exists a,
    app 100 (BullCallSpread 100 (5 # 2) 101 (4 # 5)) = Ok (AnalysisPage a)
    /\ curve_within a (((4 # 5) - (5 # 2)) * 100)
                      ((101 - 100 + ((4 # 5) - (5 # 2))) * 100).
Proof.
  destruct (app 100 (BullCallSpread 100 (5 # 2) 101 (4 # 5))) as [[msg|a|]|] eqn:E;
    try (vm_compute in E; discriminate E).
  exists a. split; [reflexivity|].
  apply (proj1 (debit_vertical_bounds 100 ltac:(discriminate)) _ _ _ _ a E).
Defined.

Section CreditVertical.

Variables (m : Q) (name : string) (l1 l2 : leg) (ks : list Q) (a : analysis).
Variables (width net : Q).
Hypothesis m_pos : 0 < m.
Hypothesis width_pos : 0 < width.
Hypothesis net_pos : 0 < net.
Hypothesis is_credit_vertical :
  name = "Bull Put Spread"%string \/ name = "Bear Call Spread"%string.
Hypothesis width_eq :
  Qmax (strike l1) (strike l2) - Qmin (strike l1) (strike l2) == width.
Hypothesis net_eq : net_premium_points [l1; l2] == net.
Hypothesis analysed : main_panel name [l1; l2] ks m = Ok a.

(** Margin, capital basis and total ROI of a two-leg credit vertical. *)
Lemma credit_vertical_analysis :
  a_margin a == width * m
  /\ a_cost_basis a == width * m
  /\ a_net_cost_credit a == net * m
  /\ exists r, a_total_roi a = Finite r /\ r == (net / width) * 100.
Proof.
  destruct (analysis_margin m _ _ _ a analysed) as [Emg [Encc [Ecb Eroi]]].
  assert (Hnet : 0 < net_premium_points [l1; l2]) by (rewrite net_eq; exact net_pos).
  destruct (credit_vertical_width m name l1 l2 is_credit_vertical Hnet) as [v [Ev Hv]].
  rewrite Emg in Ev. injection Ev as <-.
  rewrite width_eq in Hv.
  assert (Hncc : a_net_cost_credit a == net * m) by (now rewrite Encc, net_eq).
  assert (Hcb : a_cost_basis a = a_margin a).
  { rewrite Ecb. unfold cost_basis.
    destruct (Qlt_le_dec (a_net_cost_credit a) 0) as [Hlt|_]; [|reflexivity].
    rewrite Hncc in Hlt. nra. }
  split; [exact Hv|]. split; [now rewrite Hcb|]. split; [exact Hncc|].
  rewrite Eroi, Hcb. unfold total_roi.
  destruct (Qlt_le_dec (a_net_cost_credit a) 0) as [Hlt|_];
    [rewrite Hncc in Hlt; nra|].
  destruct (Qlt_le_dec 0 (a_margin a)) as [_|Hle]; [|rewrite Hv in Hle; nra].
  eexists. split; [reflexivity|].
  rewrite Hncc, Hv. field. split; lra.
Qed.

End CreditVertical.

(** X17. Credit verticals.  With strikes in order, a positive multiplier
    and a positive net premium, the analysis of a Bull Put Spread and of a
    Bear Call Spread has margin and capital basis equal to the strike width
    times the multiplier and total ROI [net premium / width * 100]; its
    curve stays between the credit minus the margin and the credit, so the
    margin covers the largest loss. *)
Theorem credit_vertical_covered :
  forall (m : Q),
    0 < m ->
    (forall k_high p_high k_low p_low a,
       app m (BullPutSpread k_high p_high k_low p_low) = Ok (AnalysisPage a) ->
       0 < p_high - p_low ->
       a_margin a == (k_high - k_low) * m
       /\ a_cost_basis a == (k_high - k_low) * m
       /\ curve_within a ((p_high - p_low - (k_high - k_low)) * m) ((p_high - p_low) * m)
       /\ a_net_cost_credit a - a_margin a <= a_max_loss a
       /\ exists r, a_total_roi a = Finite r
                    /\ r == ((p_high - p_low) / (k_high - k_low)) * 100)
    /\ (forall k_low p_low k_high p_high a,
          app m (BearCallSpread k_low p_low k_high p_high) = Ok (AnalysisPage a) ->
          0 < p_low - p_high ->
          a_margin a == (k_high - k_low) * m
          /\ a_cost_basis a == (k_high - k_low) * m
          /\ curve_within a ((p_low - p_high - (k_high - k_low)) * m) ((p_low - p_high) * m)
          /\ a_net_cost_credit a - a_margin a <= a_max_loss a
          /\ exists r, a_total_roi a = Finite r
                       /\ r == ((p_low - p_high) / (k_high - k_low)) * 100).
Proof.
  intros m Hm. split.
  - intros kh ph kl pl a E Hnet.
    destruct (app_analysis m _ a E) as [Hord Ea].
    cbn [strikes_in_order strategy_name read_sidebar strategy_details strikes] in *.
    destruct (credit_vertical_analysis m "Bull Put Spread"
                (mkleg "short_put" kh ph) (mkleg "long_put" kl pl) [kl; kh] a
                (kh - kl) (ph - pl)) as [Hmg [Hcb [Hncc Hroi]]];
      try assumption; try lra.
    + now left.
    + cbn [strike]. rewrite (Q.max_l kh kl), (Q.min_r kh kl) by lra. reflexivity.
    + change (net_premium_points [mkleg "short_put" kh ph; mkleg "long_put" kl pl])
        with (0 + ph + - pl). ring.
    + assert (Hc : curve_within a ((ph - pl - (kh - kl)) * m) ((ph - pl) * m)).
      { apply (curve_within_of_points m _ _ _ a _ _ Ea). intros s.
        change ((payoff_point s [mkleg "short_put" kh ph; mkleg "long_put" kl pl]
                 + net_premium_points [mkleg "short_put" kh ph; mkleg "long_put" kl pl]) * m)
          with ((0 + -1 * Qmax 0 (kh - s) + 1 * Qmax 0 (kl - s) + (0 + ph + - pl)) * m).
        minmax_cases; split; nra. }
      repeat split; try assumption; try apply Hc.
      destruct Hc as [_ [Hlo _]]. rewrite Hncc, Hmg. nra.
  - intros kl pl kh ph a E Hnet.
    destruct (app_analysis m _ a E) as [Hord Ea].
    cbn [strikes_in_order strategy_name read_sidebar strategy_details strikes] in *.
    destruct (credit_vertical_analysis m "Bear Call Spread"
                (mkleg "short_call" kl pl) (mkleg "long_call" kh ph) [kl; kh] a
                (kh - kl) (pl - ph)) as [Hmg [Hcb [Hncc Hroi]]];
      try assumption; try lra.
    + now right.
    + cbn [strike]. rewrite (Q.max_r kl kh), (Q.min_l kl kh) by lra. reflexivity.
    + change (net_premium_points [mkleg "short_call" kl pl; mkleg "long_call" kh ph])
        with (0 + pl + - ph). ring.
    + assert (Hc : curve_within a ((pl - ph - (kh - kl)) * m) ((pl - ph) * m)).
      { apply (curve_within_of_points m _ _ _ a _ _ Ea). intros s.
        change ((payoff_point s [mkleg "short_call" kl pl; mkleg "long_call" kh ph]
                 + net_premium_points [mkleg "short_call" kl pl; mkleg "long_call" kh ph]) * m)
          with ((0 + -1 * Qmax 0 (s - kl) + 1 * Qmax 0 (s - kh) + (0 + pl + - ph)) * m).
        minmax_cases; split; nra. }
      repeat split; try assumption; try apply Hc.
      destruct Hc as [_ [Hlo _]]. rewrite Hncc, Hmg. nra.
Qed.

Lemma credit_vertical_covered_witness :
  exists a,
    app 100 (BullPutSpread 101 3 100 (6 # 5)) = Ok (AnalysisPage a)
    /\ a_margin a == (101 - 100) * 100
    /\ a_net_cost_credit a - a_margin a <= a_max_loss a.
Proof.
  destruct (app 100 (BullPutSpread 101 3 100 (6 # 5))) as [[msg|a|]|] eqn:E;
    try (vm_compute in E; discriminate E).
  exists a. split; [reflexivity|].
  destruct (proj1 (credit_vertical_covered 100 eq_refl) 101 3 100 (6 # 5) a E eq_refl)
    as [Hmg [_ [_ [Hloss _]]]].
  split; assumption.
Defined.

(** X18. Iron condor.  With strikes in order and a positive multiplier,
    the curve stays between the net premium minus the wider of the two
    spreads and the net premium, times the multiplier, and the loss of the
    put spread is reached on the grid.  With a positive net premium the
    margin is the call width times the multiplier, so when the put spread
    is wider than the call spread the largest loss exceeds the margin less
    the credit. *)
Theorem iron_condor_risk :
  forall (m : Q) (k_lp p_lp k_sp p_sp k_sc p_sc k_lc p_lc : Q) (a : analysis),
    0 < m ->
    app m (IronCondor k_lp p_lp k_sp p_sp k_sc p_sc k_lc p_lc) = Ok (AnalysisPage a) ->
    let net := p_sp + p_sc - p_lp - p_lc in
    let put_width := k_sp - k_lp in
    let call_width := k_lc - k_sc in
    a_net_cost_credit a == net * m
    /\ curve_within a ((net - Qmax put_width call_width) * m) (net * m)
    /\ a_max_loss a <= (net - put_width) * m
    /\ (0 < net ->
        a_margin a == call_width * m
        /\ (call_width < put_width ->
            a_max_loss a < a_net_cost_credit a - a_margin a)).
Proof.
  intros m klp plp ksp psp ksc psc klc plc a Hm E net put_width call_width.
  destruct (app_analysis m _ a E) as [Hord Ea].
  cbn [strikes_in_order strategy_name read_sidebar strategy_details strikes] in *.
  destruct Hord as [H1 [H2 H3]].
  set (legs := [mkleg "long_put" klp plp; mkleg "short_put" ksp psp;
                mkleg "short_call" ksc psc; mkleg "long_call" klc plc]) in *.
  assert (Epoint : forall s,
             (payoff_point s legs + net_premium_points legs) * m
             = (0 + 1 * Qmax 0 (klp - s) + -1 * Qmax 0 (ksp - s)
                + -1 * Qmax 0 (s - ksc) + 1 * Qmax 0 (s - klc)
                + (0 + - plp + psp + psc + - plc)) * m) by reflexivity.
  assert (Enet : net_premium_points legs == net).
  { change (net_premium_points legs) with (0 + - plp + psp + psc + - plc).
    unfold net. ring. }
  destruct (analysis_margin m _ _ _ a Ea) as [Emg [Encc _]].
  assert (Hncc : a_net_cost_credit a == net * m) by (now rewrite Encc, Enet).
  assert (Hloss : a_max_loss a <= (net - put_width) * m).
  { destruct (max_loss_below_first_point m _ _ _ a Ea) as [x0 [Hx0 Hml]].
    inversion Hx0 as [|? ? Hlp _]; subst.
    rewrite Epoint in Hml.
    rewrite (Q.max_r 0 (klp - x0)), (Q.max_r 0 (ksp - x0)),
      (Q.max_l 0 (x0 - ksc)), (Q.max_l 0 (x0 - klc)) in Hml by lra.
    unfold net, put_width. nra. }
  split; [exact Hncc|]. split; [|split; [exact Hloss|]].
  - apply (curve_within_of_points m _ _ _ a _ _ Ea). intros s.
    rewrite Epoint. unfold net, put_width, call_width.
    minmax_cases; split; nra.
  - intros Hnet.
    assert (Hp : 0 < net_premium_points legs) by (now rewrite Enet).
    destruct (iron_condor_call_width m legs ksc klc (Permutation_refl _) Hp)
      as [v [Ev Hv]].
    rewrite Emg in Ev. injection Ev as <-.
    rewrite (Q.max_r ksc klc), (Q.min_l ksc klc) in Hv by lra.
    split; [exact Hv|].
    intros Hwider. rewrite Hncc, Hv. unfold call_width, put_width in *. nra.
Qed.

Lemma iron_condor_risk_witness :
  exists a,
    app 100 (IronCondor 100 (1 # 2) 102 (3 # 2) 103 (9 # 5) 104 (3 # 5))
      = Ok (AnalysisPage a)
    /\ a_max_loss a < a_net_cost_credit a - a_margin a.
Proof.
  destruct (app 100 (IronCondor 100 (1 # 2) 102 (3 # 2) 103 (9 # 5) 104 (3 # 5)))
    as [[msg|a|]|] eqn:E; try (vm_compute in E; discriminate E).
  exists a. split; [reflexivity|].
  destruct (iron_condor_risk 100 100 (1 # 2) 102 (3 # 2) 103 (9 # 5) 104 (3 # 5) a
              eq_refl E) as [_ [_ [_ H]]].
  apply H; reflexivity.
Defined.

(** X19. Butterfly.  With strikes in order and a multiplier that is not
    negative, the analysis has margin 0 and its curve stays between the net
    premium plus [min(0, 2 * k_mid - k_low - k_high)] and the net premium
    plus [k_mid - k_low], times the multiplier; the two body legs count
    twice in the net premium. *)
Theorem butterfly_bounds :
  forall (m : Q) (k_low p_low k_mid p_mid k_high p_high : Q) (a : analysis),
    0 <= m ->
    app m (ButterflySpread k_low p_low k_mid p_mid k_high p_high) = Ok (AnalysisPage a) ->
    let net := 2 * p_mid - p_low - p_high in
    a_margin a = 0
    /\ a_net_cost_credit a == net * m
    /\ curve_within a ((net + Qmin 0 (2 * k_mid - k_low - k_high)) * m)
                      ((net + (k_mid - k_low)) * m).
Proof.
  intros m kl pl km pm kh ph a Hm E net.
  destruct (app_analysis m _ a E) as [Hord Ea].
  cbn [strikes_in_order strategy_name read_sidebar strategy_details strikes] in *.
  destruct Hord as [H1 H2].
  set (legs := [mkleg "long_call" kl pl; mkleg "short_call" km pm;
                mkleg "short_call" km pm; mkleg "long_call" kh ph]) in *.
  destruct (analysis_margin m _ _ _ a Ea) as [Emg [Encc _]].
  rewrite margin_other_names in Emg by reflexivity.
  split; [now injection Emg|]. split.
  - rewrite Encc.
    change (net_premium_points legs) with (0 + - pl + pm + pm + - ph).
    unfold net. ring.
  - apply (curve_within_of_points m _ _ _ a _ _ Ea). intros s.
    change ((payoff_point s legs + net_premium_points legs) * m)
      with ((0 + 1 * Qmax 0 (s - kl) + -1 * Qmax 0 (s - km)
             + -1 * Qmax 0 (s - km) + 1 * Qmax 0 (s - kh)
             + (0 + - pl + pm + pm + - ph)) * m).
    unfold net. minmax_cases; split; nra.
Qed.

Lemma butterfly_bounds_witness :
  exists a,
    app 100 (ButterflySpread 100 6 101 2 102 (1 # 2)) = Ok (AnalysisPage a)
    /\ a_margin a = 0.
Proof.
  destruct (app 100 (ButterflySpread 100 6 101 2 102 (1 # 2)))
    as [[msg|a|]|] eqn:E; try (vm_compute in E; discriminate E).
  exists a. split; [reflexivity|].
  apply (butterfly_bounds 100 100 6 101 2 102 (1 # 2) a ltac:(discriminate) E).
Defined.

(** ** Chart regions and the list of legs *)

(** X20. The two shaded regions of the chart split the curve: the profit
    region [clip(min=0)] is nowhere negative, the loss region [clip(max=0)]
    nowhere positive, and element by element they add up to the curve. *)
Theorem profit_and_loss_regions :
  forall (pnl : list Q),
    Forall (fun v => 0 <= v) (np_clip_min 0 pnl)
    /\ Forall (fun v => v <= 0) (np_clip_max 0 pnl)
    /\ Forall2 Qeq (np_add (np_clip_min 0 pnl) (np_clip_max 0 pnl)) pnl.
Proof.
  intros pnl. unfold np_clip_min, np_clip_max. split; [|split].
  - apply Forall_forall. intros v Hv.
    apply in_map_iff in Hv. destruct Hv as [x [<- _]].
    destruct (Qlt_le_dec x 0); lra.
  - apply Forall_forall. intros v Hv.
    apply in_map_iff in Hv. destruct Hv as [x [<- _]].
    destruct (Qlt_le_dec 0 x); lra.
  - rewrite np_add_map.
    pose proof (Forall2_map_Qeq
                  (fun x => (if Qlt_le_dec x 0 then 0 else x)
                            + (if Qlt_le_dec 0 x then 0 else x))
                  (fun x => x) pnl) as H.
    rewrite map_id in H. apply H. intros x.
    destruct (Qlt_le_dec x 0), (Qlt_le_dec 0 x); lra.
Qed.

Lemma label_missing_iff (t : string) :
  dict_getitem leg_type_map t = None
  <-> t <> "long_call"%string /\ t <> "short_call"%string
      /\ t <> "long_put"%string /\ t <> "short_put"%string.
Proof.
  unfold leg_type_map. cbn [dict_getitem].
  destruct (String.eqb_spec "long_call" t) as [<-|H1].
  { split; [discriminate|]. intros [H _]. now elim H. }
  destruct (String.eqb_spec "short_call" t) as [<-|H2].
  { split; [discriminate|]. intros [_ [H _]]. now elim H. }
  destruct (String.eqb_spec "long_put" t) as [<-|H3].
  { split; [discriminate|]. intros [_ [_ [H _]]]. now elim H. }
  destruct (String.eqb_spec "short_put" t) as [<-|H4].
  { split; [discriminate|]. intros [_ [_ [_ H]]]. now elim H. }
  split; [intros _|reflexivity].
  repeat split; intros ->; congruence.
Qed.

(** X21. The closing list of legs finds a label for every leg exactly when
    every tag is one of long_call, short_call, long_put and short_put;
    otherwise the lookup fails with [KeyError] (a tag such as "x" that the
    payoff accepted fails here).  Every strategy built from the sidebar has
    a label for each of its legs. *)
Theorem leg_labels_defined :
  (forall (legs : list leg),
     leg_labels legs = None
     <-> Exists (fun l => type l <> "long_call"%string /\ type l <> "short_call"%string
                          /\ type l <> "long_put"%string /\ type l <> "short_put"%string)
                legs)
  /\ (forall (legs : list leg) (labels : list string),
        leg_labels legs = Some labels -> List.length labels = List.length legs)
  /\ (forall (s : sidebar),
        exists labels, leg_labels (strategy_details (read_sidebar s)) = Some labels).
Proof.
  split; [|split].
  - induction legs as [|l t IH]; cbn [leg_labels].
    + split; [discriminate|]. intros H. inversion H.
    + rewrite Exists_cons, <- IH, <- label_missing_iff.
      destruct (dict_getitem leg_type_map (type l)) as [label|].
      * destruct (leg_labels t); split; try discriminate; try tauto.
        intros [H|H]; discriminate H.
      * split; [now left|reflexivity].
  - induction legs as [|l t IH]; cbn [leg_labels]; intros labels E.
    + now injection E as <-.
    + destruct (dict_getitem leg_type_map (type l)) as [label|]; [|discriminate E].
      destruct (leg_labels t) as [labels'|]; [|discriminate E].
      injection E as <-. simpl. now rewrite (IH labels' eq_refl).
  - intros s. destruct s; cbn; eauto.
Qed.

Lemma leg_labels_defined_witness :
  leg_labels [mkleg "long_call" 100 2; mkleg "x" 105 1] = None
  /\ List.length ["買進 買權"; "賣出 買權"]%string = 2%nat.
Proof.
  split.
  - apply (proj1 leg_labels_defined).
    apply Exists_cons_tl, Exists_cons_hd. repeat split; discriminate.
  - apply (proj1 (proj2 leg_labels_defined)
             [mkleg "long_call" 100 2; mkleg "short_call" 110 1]).
    reflexivity.
Defined.

(** ** Break-even prices and the multiplier *)

Section Scaling.

Variables (m : Q) (pnl1 pnl2 : list Q).
Hypothesis m_pos : 0 < m.
Hypothesis same_length : List.length pnl1 = List.length pnl2.
Hypothesis scaled : forall i, nth i pnl1 0 == nth i pnl2 0 * m.

Lemma signBucket_scaled (x y : Q) : x == y * m -> Spec.signBucket x = Spec.signBucket y.
Proof.
  intros E. unfold Spec.signBucket.
  destruct (y ?= 0) eqn:Ey.
  - apply Qeq_alt in Ey. apply (proj1 (Qeq_alt _ _)). rewrite E, Ey. ring.
  - apply Qlt_alt in Ey. apply (proj1 (Qlt_alt _ _)). rewrite E. nra.
  - apply Qgt_alt in Ey. apply (proj1 (Qgt_alt _ _)). rewrite E. nra.
Qed.

Lemma crossing_scaled (i : nat) : Spec.crossing pnl1 i = Spec.crossing pnl2 i.
Proof.
  unfold Spec.crossing, Spec.sameSign.
  rewrite (signBucket_scaled _ _ (scaled i)), (signBucket_scaled _ _ (scaled (i + 1))).
  f_equal. f_equal.
  destruct (Qeq_bool (nth (i + 1) pnl2 0 - nth i pnl2 0) 0) eqn:E2.
  - apply Qeq_bool_iff in E2. apply Qeq_bool_iff.
    rewrite (scaled i), (scaled (i + 1)). nra.
  - destruct (Qeq_bool (nth (i + 1) pnl1 0 - nth i pnl1 0) 0) eqn:E1; [|reflexivity].
    apply Qeq_bool_iff in E1. rewrite (scaled i), (scaled (i + 1)) in E1.
    assert (H' : (nth (i + 1) pnl2 0 - nth i pnl2 0) * m == 0).
    { transitivity (nth (i + 1) pnl2 0 * m - nth i pnl2 0 * m); [ring|exact E1]. }
    apply Qmult_integral in H'. destruct H' as [E|E]; [|lra].
    apply Qeq_bool_iff in E. congruence.
Qed.

Lemma interpolate_scaled (prices : list Q) (i : nat) :
  Spec.crossing pnl2 i = true ->
  Spec.interpolate prices pnl1 i == Spec.interpolate prices pnl2 i.
Proof.
  intros Hc. unfold Spec.crossing in Hc.
  apply andb_prop in Hc. destruct Hc as [_ Hd].
  apply negb_true_iff in Hd.
  assert (Hne : ~ nth (i + 1) pnl2 0 - nth i pnl2 0 == 0).
  { intros H. apply Qeq_bool_iff in H. congruence. }
  unfold Spec.interpolate.
  rewrite (scaled i), (scaled (i + 1)).
  field. split; [exact Hne|].
  intros H.
  assert (H' : (nth (i + 1) pnl2 0 - nth i pnl2 0) * m == 0).
  { transitivity (nth (i + 1) pnl2 0 * m - nth i pnl2 0 * m); [ring|exact H]. }
  apply Qmult_integral in H'. destruct H' as [H'|H']; [now apply Hne|lra].
Qed.

Lemma findCrossings_scaled (prices : list Q) :
  Forall2 Qeq (Spec.findCrossings prices pnl1) (Spec.findCrossings prices pnl2).
Proof.
  unfold Spec.findCrossings. rewrite same_length.
  rewrite (filter_ext _ _ crossing_scaled).
  induction (seq 0 (List.length pnl2 - 1)) as [|i t IH]; cbn [filter]; [constructor|].
  destruct (Spec.crossing pnl2 i) eqn:Hc; [|exact IH].
  cbn [map]. constructor; [now apply interpolate_scaled|exact IH].
Qed.

End Scaling.

Lemma pnl_currency_nth_scaled (S : list Q) (legs : list leg) (m : Q) (i : nat) :
  nth i (pnl_currency S legs m) 0 == nth i (pnl_currency S legs 1) 0 * m.
Proof.
  rewrite !pnl_currency_map.
  destruct (le_lt_dec (List.length S) i) as [Hout|Hin].
  - rewrite !nth_overflow by (now rewrite length_map). ring.
  - set (f := fun s => (payoff_point s legs + net_premium_points legs) * m).
    set (g := fun s => (payoff_point s legs + net_premium_points legs) * 1).
    rewrite (nth_indep (map f S) 0 (f 0)) by (now rewrite length_map).
    rewrite (nth_indep (map g S) 0 (g 0)) by (now rewrite length_map).
    rewrite (map_nth f), (map_nth g). unfold f, g. ring.
Qed.

(** X22. The break-even prices do not depend on a positive contract
    multiplier: on any price array the break-evens of the currency curve
    are, one by one, those of the per-unit curve (multiplier 1). *)
Theorem break_evens_independent_of_multiplier :
  forall (S : list Q) (legs : list leg) (m : Q),
    0 < m ->
    exists r r1,
      find_break_even_points S (pnl_currency S legs m) = Ok r
      /\ find_break_even_points S (pnl_currency S legs 1) = Ok r1
      /\ Forall2 Qeq r r1.
Proof.
  intros S legs m Hm.
  exists (Spec.findCrossings S (pnl_currency S legs m)),
         (Spec.findCrossings S (pnl_currency S legs 1)).
  split; [apply find_break_even_points_eq; symmetry; apply length_pnl_currency|].
  split; [apply find_break_even_points_eq; symmetry; apply length_pnl_currency|].
  apply (findCrossings_scaled m); [exact Hm| |].
  - now rewrite !length_pnl_currency.
  - intros i. apply pnl_currency_nth_scaled.
Qed.

Lemma break_evens_independent_of_multiplier_witness :
  exists r r1,
    find_break_even_points [100; 102; 104]
      (pnl_currency [100; 102; 104] [mkleg "long_call" 100 (5 # 2)] 100) = Ok r
    /\ find_break_even_points [100; 102; 104]
         (pnl_currency [100; 102; 104] [mkleg "long_call" 100 (5 # 2)] 1) = Ok r1
    /\ Forall2 Qeq r r1.
Proof.
  apply break_evens_independent_of_multiplier. reflexivity.
Defined.
